(** * pdist: dependency graph of a script pack, and the import-style checks

    A shallow embedding of [pyscriptpacker/graph.py] (class [ModuleGraph]:
    source scanning, canonical module names, resolution of import
    references, topological ordering, pack emission) and of
    [ppack/checks.py] (the import-style classifier).

    Python strings are [string]; dictionaries and sets are stdpp's [gmap] and
    [gset]; an exception is a [Raise] result; the mutable fields of
    [ModuleGraph] are threaded as an explicit [graph_state]; the file system
    and the running interpreter ([sys.modules], [sys.path], [ast.parse]) are
    parameters of the model. *)

From Stdlib Require Import Ascii String.
From stdpp Require Import gmap strings list fin_maps sorting.
Local Open Scope string_scope.
Set Warnings "-register-all".

(** ** Python string and [os.path] operations used by the sources *)

Module Py.

(** [pat in s] *)
Fixpoint contains (pat s : string) : bool :=
  String.prefix pat s ||
  match s with
  | EmptyString => false
  | String _ s' => contains pat s'
  end.

(** [c in s] for a one-character [c] *)
Fixpoint has_char (c : ascii) (s : string) : bool :=
  match s with
  | EmptyString => false
  | String a s' => bool_decide (a = c) || has_char c s'
  end.

(** [s.startswith(pre)] *)
Definition startswith (s pre : string) : bool := String.prefix pre s.

(** [s.endswith(suf)] *)
Fixpoint endswith (s suf : string) : bool :=
  bool_decide (s = suf) ||
  match s with
  | EmptyString => false
  | String _ s' => endswith s' suf
  end.

(** [s.split(c)] for a one-character separator; the result is never empty. *)
Fixpoint split (c : ascii) (s : string) : list string :=
  match s with
  | EmptyString => [EmptyString]
  | String a s' =>
      if bool_decide (a = c) then EmptyString :: split c s'
      else match split c s' with
           | [] => [String a EmptyString]
           | h :: t => String a h :: t
           end
  end.

(** [sep.join(l)] *)
Definition join (sep : string) (l : list string) : string := String.concat sep l.

(** [s.split(pat)[0]]: the text before the first occurrence of [pat]. *)
Fixpoint before_first (pat s : string) : string :=
  if String.prefix pat s then EmptyString
  else match s with
       | EmptyString => EmptyString
       | String a s' => String a (before_first pat s')
       end.

(** [s.replace(a, b)] for one-character [a] and [b] *)
Fixpoint replace (a b : ascii) (s : string) : string :=
  match s with
  | EmptyString => EmptyString
  | String x s' => String (if bool_decide (x = a) then b else x) (replace a b s')
  end.

(** [s.rpartition(c)[0]]: the text before the last [c], empty when [s] has
    no [c]. *)
Fixpoint rpartition_head (c : ascii) (s : string) : string :=
  match s with
  | EmptyString => EmptyString
  | String a s' => if has_char c s' then String a (rpartition_head c s') else EmptyString
  end.

(** [s[:-n]] for [n > 0] *)
Definition drop_last (n : nat) (s : string) : string :=
  String.substring 0 (String.length s - n) s.

(** [l[0:-n]] for [n > 0] *)
Definition list_drop_last {A} (n : nat) (l : list A) : list A :=
  take (length l - n) l.

(** [l[-1]] of a list that [split] returned *)
Definition last_segment (l : list string) : string := List.last l EmptyString.

Definition sep : ascii := "/"%char.
Definition sep_s : string := "/".

(** [os.path.join(a, b)] (posixpath) *)
Definition path_join (a b : string) : string :=
  if startswith b sep_s then b
  else if bool_decide (a = EmptyString) || endswith a sep_s then a +:+ b
  else a +:+ sep_s +:+ b.

Fixpoint all_sep (s : string) : bool :=
  match s with
  | EmptyString => true
  | String a s' => bool_decide (a = sep) && all_sep s'
  end.

(** [s.rstrip('/')] *)
Fixpoint rstrip_sep (s : string) : string :=
  match s with
  | EmptyString => EmptyString
  | String a s' => if all_sep s' && bool_decide (a = sep) then EmptyString
                   else String a (rstrip_sep s')
  end.

(** [os.path.dirname(p)] (posixpath): the head up to the last separator,
    trailing separators removed unless the head is only separators. *)
Definition dirname (p : string) : string :=
  let head := if has_char sep p then rpartition_head sep p +:+ sep_s else EmptyString in
  if negb (bool_decide (head = EmptyString)) && negb (all_sep head)
  then rstrip_sep head else head.

(** truth value of a string *)
Definition truthy (s : string) : bool := negb (bool_decide (s = EmptyString)).

End Py.

(** ** Results and exceptions *)

Inductive exn :=
| KeyError (key : string)
| FileNotFoundError (path : string)
| SyntaxError (text : string)
| AttributeError
| CircularDependencyError.

Inductive result (A : Type) :=
| Ok (a : A)
| Raise (e : exn).
Arguments Ok {A} a.
Arguments Raise {A} e.

Global Instance result_bind : MBind result := λ A B f r,
  match r with
  | Ok a => f a
  | Raise e => Raise e
  end.
Global Instance result_fmap : FMap result := λ A B f r,
  match r with
  | Ok a => Ok (f a)
  | Raise e => Raise e
  end.

(** ** The syntax tree that [ast.parse] returns

    Only the two import statements are told apart; every other node is a
    [Node] with its child nodes in field order, which is all that
    [ast.NodeVisitor.generic_visit] looks at. *)

Record alias := { alias_name : string; asname : option string }.

Inductive ast :=
| Import (names : list alias)
| ImportFrom (module : option string) (names : list alias) (level : nat)
| Node (children : list ast).

(** ** The environment: file system and running interpreter *)

Record filesystem := {
  (** [os.path.exists] *)
  path_exists : string → bool;
  (** [os.path.isfile] *)
  path_isfile : string → bool;
  (** [os.listdir]; [None] when it raises *)
  listdir : string → option (list string);
  (** [os.walk]: the [(root, dirs, files)] triples in the order yielded *)
  walk : string → list (string * list string * list string);
  (** [open(path).read()]; [None] when the file cannot be opened *)
  read : string → option string;
}.

Record interpreter := {
  (** the keys of [sys.modules] *)
  sys_modules : list string;
  sys_builtin_module_names : list string;
  sys_path : list string;
  (** [ast.parse]; [None] on a syntax error *)
  ast_parse : string → option ast;
}.

(** ** graph.py *)

Module ImportInfo.
Record t := make { name : string; level : option nat }.
End ImportInfo.

(** [ImportFinder]: [visit_Import], [visit_ImportFrom] and the generic visit
    of every other node; the result is [list_imports]. *)
Fixpoint list_imports (node : ast) : list ImportInfo.t :=
  match node with
  | Import names =>
      map (λ a, ImportInfo.make (alias_name a) None) names
  | ImportFrom module names level =>
      map (λ a,
             let fullname :=
               match module with
               | Some m => if Py.truthy m then m +:+ "." +:+ alias_name a
                           else alias_name a
               | None => alias_name a
               end in
             ImportInfo.make fullname (Some level)) names
  | Node children => flat_map list_imports children
  end.

(** class [Module] *)
Record PyModule := {
  module_name : string;
  file_name : string;
  is_package : bool;
  content : string;
  imports : gset string;
}.

(** the dictionary of [Module.to_dict] *)
Record pack_record := {
  rec_name : string;
  rec_is_package : bool;
  rec_code : string;
}.

Definition to_dict (m : PyModule) : pack_record :=
  {| rec_name := module_name m; rec_is_package := is_package m; rec_code := content m |}.

(** the fields of a [ModuleGraph] object *)
Record ModuleGraph := {
  _modules : gmap string PyModule;
  _module_cache : gmap (string * option string) string;
  _paths : list string;
}.

(** A method of [ModuleGraph]: it reads and updates the object, or raises. *)
Definition M (A : Type) : Type := ModuleGraph → result (A * ModuleGraph).


Section ModuleGraph.
Context (fs : filesystem) (host : interpreter).

(** [ModuleGraph.__init__] *)
Definition init : ModuleGraph :=
  {| _modules := ∅; _module_cache := ∅; _paths := sys_path host |}.

(** the test of [_find_module_name] on a directory listing:
    [any('.py' in file and file != 'setup.py' for file in os.listdir(..))] *)
Definition contain_python (entries : list string) : bool :=
  existsb (λ file, Py.contains ".py" file && negb (bool_decide (file = "setup.py")))
          entries.

(** The [while elements] loop of [_find_module_name]. [elements] is held
    reversed, so that [elements.pop()] takes the head; [module_name] is the
    list built so far. *)
Fixpoint climb (rev_elements module_name : list string) : result (list string) :=
  match rev_elements with
  | [] => Ok module_name
  | e :: rest =>
      let module_name := (module_name ++ [e])%list in
      let parent := Py.join Py.sep_s (reverse rest) in
      match listdir fs parent with
      | None => Raise (FileNotFoundError parent)
      | Some entries =>
          if contain_python entries then climb rest module_name
          else Ok module_name
      end
  end.

Definition _find_module_name (file_name file_path : string) : result string :=
  names ← climb (reverse (Py.split Py.sep file_path)) [];
  let module_name := Py.join "." (reverse names) in
  if negb (Py.contains "__init__.py" file_name) then
    let file_name := Py.before_first ".py" file_name in
    let file_name :=
      if Py.has_char Py.sep file_name
      then Py.last_segment (Py.split Py.sep file_name)
      else file_name in
    Ok (module_name +:+ "." +:+ file_name)
  else Ok module_name.

(** [self._module_cache[(imp_name, extrapath)] = module_name] *)
Definition cache_store (imp_name : string) (extrapath : option string)
    (module_name : string) (g : ModuleGraph) : ModuleGraph :=
  {| _modules := _modules g;
     _module_cache := <[(imp_name, extrapath) := module_name]> (_module_cache g);
     _paths := _paths g |}.

(** The two searches of [_get_name_via_module], which end alike: the path
    [full_path] that the method settles on. It is the file under [extrapath]
    when [extrapath] is set and that file exists ([if extrapath:]), else the
    file under the first entry of [_paths] that is not itself a file and
    under which the file exists ([for path in self._paths:]). *)
Definition found_path (imp_filename : string) (extrapath : option string)
    (paths : list string) : option string :=
  let under_extra :=
    match extrapath with
    | Some ep =>
        if Py.truthy ep && path_exists fs (Py.path_join ep imp_filename)
        then Some (Py.path_join ep imp_filename) else None
    | None => None
    end in
  match under_extra with
  | Some full_path => Some full_path
  | None =>
      (λ path, Py.path_join path imp_filename) <$>
      List.find (λ path, negb (path_isfile fs path) &&
                         path_exists fs (Py.path_join path imp_filename)) paths
  end.

(** [imp_name.replace('.', os.path.sep) + '.py'] *)
Definition file_of (imp_name : string) : string :=
  Py.replace "." Py.sep imp_name +:+ ".py".

Definition _get_name_via_module (imp_name : string) (extrapath : option string)
    : M (option string) := λ g,
  let imp_filename := file_of imp_name in
  match found_path imp_filename extrapath (_paths g) with
  | Some full_path =>
      module_name ← _find_module_name imp_filename (Py.dirname full_path);
      Ok (Some module_name, cache_store imp_name extrapath module_name g)
  | None => Ok (None, g)
  end.

Definition _get_name_via_package (imp_name : string) (extrapath : option string)
    : M (option string) :=
  _get_name_via_module (imp_name +:+ ".__init__") extrapath.

(** [if result:] on what a lookup returned *)
Definition found (r : option string) : bool :=
  match r with
  | Some s => Py.truthy s
  | None => false
  end.

(** The [while name] loop of [_find_module_of_import]; [None] when it ends
    without a [return]. Every round shortens [name], so [String.length name]
    rounds are enough ([lookup_loop_fuel]). *)
Fixpoint lookup_loop (fuel : nat) (name : string) (extrapath : option string)
    : M (option string) := λ g,
  if Py.truthy name then
    match fuel with
    | O => Ok (None, g)
    | S fuel' =>
        '(result, g1) ← _get_name_via_module name extrapath g;
        if found result then Ok (result, g1)
        else
          '(result, g2) ← _get_name_via_package name extrapath g1;
          if found result then Ok (result, g2)
          else lookup_loop fuel' (Py.rpartition_head "." name) extrapath g2
    end
  else Ok (None, g).

(** the names that the [while name] loop goes through *)
Fixpoint shortenings (fuel : nat) (name : string) : list string :=
  if Py.truthy name then
    match fuel with
    | O => []
    | S fuel' => name :: shortenings fuel' (Py.rpartition_head "." name)
    end
  else [].

(** Neither the module file nor the package marker of [name] is found. *)
Definition nothing_found (name : string) (extrapath : option string)
    (paths : list string) : Prop :=
  found_path (file_of name) extrapath paths = None ∧
  found_path (file_of (name +:+ ".__init__")) extrapath paths = None.

(** [imp_name in sys.modules or imp_name in sys.builtin_module_names] *)
Definition excluded (imp_name : string) : bool :=
  bool_decide (imp_name ∈ sys_modules host) ||
  bool_decide (imp_name ∈ sys_builtin_module_names host).

(** the [extrapath] of [_find_module_of_import] *)
Definition extra_path (imp_level : option nat) (file_path : string) : option string :=
  match imp_level with
  | Some level =>
      if bool_decide (1 < level)
      then Some (Py.join Py.sep_s
                   (Py.list_drop_last (level - 1) (Py.split Py.sep file_path)))
      else None
  | None => None
  end.

Definition _find_module_of_import (imp_name : string) (imp_level : option nat)
    (file_path : string) : M (option string) := λ g,
  if excluded imp_name then Ok (None, g)
  else if Py.endswith imp_name ".*" then Ok (Some (Py.drop_last 2 imp_name), g)
  else
    let extrapath := extra_path imp_level file_path in
    match _module_cache g !! (imp_name, extrapath) with
    | Some cached => Ok (Some cached, g)
    | None =>
        '(result, g') ← lookup_loop (String.length imp_name) imp_name extrapath g;
        match result with
        | Some module_name => Ok (Some module_name, g')
        | None => Ok (Some imp_name, g')
        end
    end.

(** the set comprehension of [parse_file]: the imports are resolved in the
    order [ImportFinder] listed them *)
Fixpoint resolve_all (import_infos : list ImportInfo.t) (file_path : string)
    : M (list (option string)) := λ g,
  match import_infos with
  | [] => Ok ([], g)
  | imp :: rest =>
      '(r, g1) ← _find_module_of_import (ImportInfo.name imp) (ImportInfo.level imp)
                   file_path g;
      '(rs, g2) ← resolve_all rest file_path g1;
      Ok (r :: rs, g2)
  end.

Definition open_read (path : string) : result string :=
  match read fs path with
  | Some text => Ok text
  | None => Raise (FileNotFoundError path)
  end.

Definition parse (text : string) : result ast :=
  match ast_parse host text with
  | Some tree => Ok tree
  | None => Raise (SyntaxError text)
  end.

Definition parse_file (file_name file_path : string) : M () := λ g,
  module_name ← _find_module_name file_name file_path;
  content ← open_read (Py.path_join file_path file_name);
  text ← open_read (Py.path_join file_path file_name);
  root ← parse text;
  '(resolved, g') ← resolve_all (list_imports root) file_path g;
  let module :=
    {| module_name := module_name;
       file_name := file_name;
       is_package := bool_decide (file_name = "__init__.py");
       content := content;
       imports := list_to_set (omap id resolved) |} in
  Ok ((), {| _modules := <[module_name := module]> (_modules g');
             _module_cache := _module_cache g';
             _paths := _paths g' |}).

(** the [for file in files] loop of [parse_paths] *)
Fixpoint parse_files (files : list string) (root : string) : M () := λ g,
  match files with
  | [] => Ok ((), g)
  | file :: rest =>
      if Py.endswith file ".py" && negb (bool_decide (file = "setup.py"))
      then '(_, g1) ← parse_file file root g; parse_files rest root g1
      else parse_files rest root g
  end.

(** the [for root, _, files in os.walk(path)] loop of [parse_paths] *)
Fixpoint parse_walk (triples : list (string * list string * list string)) : M () := λ g,
  match triples with
  | [] => Ok ((), g)
  | (root, _, files) :: rest =>
      let g1 := {| _modules := _modules g;
                   _module_cache := _module_cache g;
                   _paths := (_paths g ++ [root])%list |} in
      '(_, g2) ← parse_files files root g1;
      parse_walk rest g2
  end.

(** [parse_paths]: a root that does not exist ends the method ([return]). *)
Fixpoint parse_paths (paths : list string) : M () := λ g,
  match paths with
  | [] => Ok ((), g)
  | path :: rest =>
      if negb (path_exists fs path) then Ok ((), g)
      else '(_, g1) ← parse_walk (walk fs path) g; parse_paths rest g1
  end.

End ModuleGraph.

(** ** The [toposort] package

    [graph.py] imports [toposort_flatten] from the third-party package
    [toposort]; its source is not part of the repository. The definitions
    below follow the package's published algorithm: self-dependencies are
    discarded, every item that occurs only as a dependency is added with no
    dependencies of its own, and the items without dependencies are yielded
    and removed, round after round; what remains when no such item is left is
    a circular dependency. [toposort_flatten] sorts every yielded set. *)

Module Toposort.

(** [{item: set(e for e in dep if e != item) for item, dep in data.items()}] *)
Definition discard_self (data : gmap string (gset string)) : gmap string (gset string) :=
  map_imap (λ item dep, Some (dep ∖ {[item]})) data.

(** [_reduce(set.union, data.values()) - set(data.keys())] *)
Definition extra_items_in_deps (data : gmap string (gset string)) : gset string :=
  map_fold (λ _ dep acc, acc ∪ dep) ∅ data ∖ dom data.

(** [data.update({item: set() for item in extra_items_in_deps})] *)
Definition add_extra (data : gmap string (gset string)) : gmap string (gset string) :=
  gset_to_gmap ∅ (extra_items_in_deps data) ∪ data.

(** [set(item for item, dep in data.items() if len(dep) == 0)] *)
Definition ordered_of (data : gmap string (gset string)) : gset string :=
  dom (filter (λ kv, kv.2 = ∅) data).

(** [{item: (dep - ordered) for item, dep in data.items() if item not in ordered}] *)
Definition remove_ordered (ordered : gset string) (data : gmap string (gset string))
    : gmap string (gset string) :=
  (λ dep, dep ∖ ordered) <$> filter (λ kv, kv.1 ∉ ordered) data.

(** The [while True] loop of [toposort], with the sets it yields. Every round
    that yields removes an item, so [size data] rounds are enough
    ([loop_fuel]). *)
Fixpoint loop (fuel : nat) (data : gmap string (gset string)) : result (list (gset string)) :=
  let ordered := ordered_of data in
  if decide (ordered = ∅) then
    if decide (data = ∅) then Ok [] else Raise CircularDependencyError
  else
    match fuel with
    | O => Ok []
    | S fuel' => (λ rest, ordered :: rest) <$> loop fuel' (remove_ordered ordered data)
    end.

Definition toposort (data : gmap string (gset string)) : result (list (gset string)) :=
  if decide (data = ∅) then Ok []
  else
    let data := add_extra (discard_self data) in
    loop (size data) data.

(** [sorted(d)]; [d] is a set, read in the order [iter] lists it *)
Definition sorted (l : list string) : list string := merge_sort String.le l.

(** the [result.extend(sorted(d))] of [toposort_flatten], over all yielded sets *)
Definition flatten (iter : gset string → list string) (layers : list (gset string))
    : list string :=
  concat ((λ d, sorted (iter d)) <$> layers).

Definition toposort_flatten_iter (iter : gset string → list string)
    (data : gmap string (gset string)) : result (list string) :=
  flatten iter <$> toposort data.

Definition toposort_flatten : gmap string (gset string) → result (list string) :=
  toposort_flatten_iter elements.

End Toposort.

(** ** Ordering and pack emission *)

(** [x] stands strictly before [y] in [l]. *)
Definition before (l : list string) (x y : string) : Prop :=
  ∃ i j, (i < j)%nat ∧ l !! i = Some x ∧ l !! j = Some y.

(** [_build_dependency_data]; [iter] is the order in which a Python [set]
    lists its elements. *)
Definition _build_dependency_data_iter (iter : gset string → list string)
    (g : ModuleGraph) : result (list string) :=
  Toposort.toposort_flatten_iter iter (imports <$> _modules g).

Definition _build_dependency_data : ModuleGraph → result (list string) :=
  _build_dependency_data_iter elements.

(** [self._modules[module].to_dict()] *)
Definition module_record (g : ModuleGraph) (module : string) : result pack_record :=
  match _modules g !! module with
  | Some m => Ok (to_dict m)
  | None => Raise (KeyError module)
  end.

Fixpoint collect (g : ModuleGraph) (list_dependencies : list string)
    : result (list pack_record) :=
  match list_dependencies with
  | [] => Ok []
  | module :: rest =>
      r ← module_record g module;
      rs ← collect g rest;
      Ok (r :: rs)
  end.

Definition generate_data_iter (iter : gset string → list string)
    (g : ModuleGraph) : result (list pack_record) :=
  list_dependencies ← _build_dependency_data_iter iter g;
  collect g list_dependencies.

Definition generate_data : ModuleGraph → result (list pack_record) :=
  generate_data_iter elements.

(** the graphs that a lookup can lead to: only the cache differs, and no entry
    of it is lost *)
Definition cache_grown (g g' : ModuleGraph) : Prop :=
  _modules g' = _modules g ∧ _paths g' = _paths g ∧
  ∀ key, is_Some (_module_cache g !! key) → is_Some (_module_cache g' !! key).

(** Every entry of the cache stands for a file that is on the search path:
    entries are only stored for names whose file was found. *)
Definition cache_sound (fs : filesystem) (g : ModuleGraph) : Prop :=
  ∀ imp_name extrapath module_name,
    _module_cache g !! (imp_name, extrapath) = Some module_name →
    is_Some (found_path fs (file_of imp_name) extrapath (_paths g)).

(** Every module is registered under its own name, as [parse_file] does. *)
Definition registry_named (g : ModuleGraph) : Prop :=
  ∀ k m, _modules g !! k = Some m → module_name m = k.

(** ** checks.py *)

(** [_HasAbsoluteImportOfModuleCheck]: the visitor's flag after the visit of
    [node], starting from [flag]; [node.module.startswith] raises when a
    from-import of level 0 has no module. *)
Definition names_match (module : string) (names : list alias) : bool :=
  existsb (λ a, bool_decide (alias_name a = module) ||
                Py.startswith (alias_name a) (module +:+ ".")) names.

Fixpoint visit_abs (module : string) (node : ast) (flag : bool) : result bool :=
  match node with
  | Import names => Ok (names_match module names || flag)
  | ImportFrom node_module _ level =>
      if bool_decide (level = 0) then
        match node_module with
        | Some m =>
            Ok ((bool_decide (m = module) || Py.startswith m (module +:+ ".")) || flag)
        | None => Raise AttributeError
        end
      else Ok flag
  | Node children =>
      (fix visit_list (l : list ast) (flag : bool) : result bool :=
         match l with
         | [] => Ok flag
         | child :: rest =>
             match visit_abs module child flag with
             | Ok flag' => visit_list rest flag'
             | Raise e => Raise e
             end
         end) children flag
  end.

(** the [for] loop of [generic_visit] over the children of a node *)
Fixpoint visit_abs_list (module : string) (l : list ast) (flag : bool) : result bool :=
  match l with
  | [] => Ok flag
  | child :: rest =>
      match visit_abs module child flag with
      | Ok flag' => visit_abs_list module rest flag'
      | Raise e => Raise e
      end
  end.

(** every node of a tree, the root first *)
Fixpoint nodes (t : ast) : list ast :=
  t :: match t with
       | Node children => flat_map nodes children
       | _ => []
       end.

(** [name] is [module] or a dotted submodule of it. *)
Definition is_or_under (module name : string) : Prop :=
  name = module ∨ ∃ rest, name = module +:+ "." +:+ rest.

(** [n] is a plain import of [module] or of a dotted submodule of it, or a
    from-import of level 0 from one of them. *)
Definition imports_module (module : string) (n : ast) : Prop :=
  match n with
  | Import names => ∃ a, a ∈ names ∧ is_or_under module (alias_name a)
  | ImportFrom (Some m) _ O => is_or_under module m
  | _ => False
  end.

(** What [ast.parse] guarantees: a from-import without a module is relative. *)
Definition parsed_shape (t : ast) : Prop :=
  ∀ names, ImportFrom None names 0 ∉ nodes t.

Section Checks.
Context (host : interpreter).

Definition has_absolute_import_of_module (source module : string) : result bool :=
  root ← parse host source;
  visit_abs module root false.

End Checks.

(** ** A file system given as a tree, for running the model

    Paths are resolved from the root of the tree; the empty path names
    nothing. The entries of a directory are held in the order the operating
    system lists them. *)

Module TreeFs.

Inductive node :=
| File (text : string)
| Dir (entries : list (string * node)).

Definition segments (path : string) : list string :=
  List.filter (λ s, Py.truthy s) (Py.split Py.sep path).

Fixpoint entry (name : string) (entries : list (string * node)) : option node :=
  match entries with
  | [] => None
  | (n, child) :: rest => if bool_decide (n = name) then Some child else entry name rest
  end.

Fixpoint find_segments (segs : list string) (n : node) : option node :=
  match segs with
  | [] => Some n
  | s :: rest =>
      match n with
      | Dir entries =>
          match entry s entries with
          | Some child => find_segments rest child
          | None => None
          end
      | File _ => None
      end
  end.

Definition find (root : node) (path : string) : option node :=
  if Py.truthy path then find_segments (segments path) root else None.

Definition is_dir (n : node) : bool :=
  match n with
  | Dir _ => true
  | File _ => false
  end.

Definition dirs_of (entries : list (string * node)) : list string :=
  fst <$> List.filter (λ e, is_dir e.2) entries.

Definition files_of (entries : list (string * node)) : list string :=
  fst <$> List.filter (λ e, negb (is_dir e.2)) entries.

(** [os.walk(top)], top-down *)
Fixpoint walk_node (top : string) (n : node) : list (string * list string * list string) :=
  match n with
  | File _ => []
  | Dir entries =>
      (top, dirs_of entries, files_of entries) ::
      (fix below (es : list (string * node)) :=
         match es with
         | [] => []
         | (name, child) :: es' => (walk_node (Py.path_join top name) child ++ below es')%list
         end) entries
  end.

Definition fs (root : node) : filesystem :=
  {| path_exists := λ path, bool_decide (is_Some (find root path));
     path_isfile := λ path,
       match find root path with
       | Some (File _) => true
       | _ => false
       end;
     listdir := λ path,
       match find root path with
       | Some (Dir entries) => Some (fst <$> entries)
       | _ => None
       end;
     walk := λ top,
       match find root top with
       | Some n => walk_node top n
       | None => []
       end;
     read := λ path,
       match find root path with
       | Some (File text) => Some text
       | _ => None
       end |}.

End TreeFs.

(** ** Fixtures *)

Module Fixture.
Import TreeFs.

Definition name_of (n : string) : alias := {| alias_name := n; asname := None |}.

(** the texts of the fixture files, with the trees [ast.parse] gives them *)
Definition parse_table : list (string * ast) :=
  [ ("", Node []);
    ("import notinstalled", Node [Import [name_of "notinstalled"]]);
    ("from pkg.sub import *", Node [ImportFrom (Some "pkg.sub") [name_of "*"] 0]);
    ("from pkg import VERSION", Node [ImportFrom (Some "pkg") [name_of "VERSION"] 0]);
    ("import pkg.sub.mod", Node [Import [name_of "pkg.sub.mod"]]);
    ("from . import sub2", Node [ImportFrom None [name_of "sub2"] 1]) ].

Fixpoint table_parse (table : list (string * ast)) (text : string) : option ast :=
  match table with
  | [] => None
  | (t, tree) :: rest => if bool_decide (t = text) then Some tree else table_parse rest text
  end.

Definition host : interpreter :=
  {| sys_modules := ["sys"; "os"; "os.path"];
     sys_builtin_module_names := ["sys"; "builtins"];
     sys_path := [];
     ast_parse := table_parse parse_table |}.

(** [/r/proj/a.py] imports a module that is nowhere on the search path. *)
Definition dangling_tree : node :=
  Dir [("r", Dir [("proj", Dir [("a.py", File "import notinstalled")])])].

(** [/r/proj] holds [main.py] next to the directory [pkg]. *)
Definition flat_tree : node :=
  Dir [("r", Dir [("proj", Dir [("main.py", File "from pkg.sub import *");
                                 ("pkg", Dir [("sub.py", File "")])])])].

(** a package whose marker file imports from the package itself *)
Definition self_tree : node :=
  Dir [("r", Dir [("proj", Dir [("pkg", Dir [("__init__.py", File "from pkg import VERSION")])])])].

(** [pkg] is the outermost package: [/r/proj] holds no source file. *)
Definition pkg_tree : node :=
  Dir [("r", Dir [("proj", Dir [("pkg", Dir [("__init__.py", File "");
                                              ("sub", Dir [("__init__.py", File "");
                                                           ("mod.py", File "")])])])])].

(** [pkg/sub.py] under a search-path directory that holds no source file *)
Definition short_tree : node :=
  Dir [("r", Dir [("proj", Dir [("pkg", Dir [("__init__.py", File "");
                                              ("sub.py", File "")])])])].

Definition scan (tree : node) (roots : list string) : result (() * ModuleGraph) :=
  parse_paths (fs tree) host roots (init host).

(** Scenario 2 of the specification: [pkg/sub.py] imports its sibling
    [sub2] relatively. *)
Definition chain_tree : node :=
  Dir [("r", Dir [("proj", Dir [("pkg", Dir [("__init__.py", File "");
                                              ("sub.py", File "from . import sub2");
                                              ("sub2.py", File "")])])])].

(** a graph object whose search path is the project directory alone *)
Definition proj_graph : ModuleGraph :=
  {| _modules := ∅; _module_cache := ∅; _paths := ["/r/proj"] |}.

(** the graph object when the walk reaches [/r/proj/pkg] *)
Definition pkg_graph : ModuleGraph :=
  {| _modules := ∅; _module_cache := ∅; _paths := ["/r/proj"; "/r/proj/pkg"] |}.

(** the graph object after [parse_paths(roots)] *)
Definition scanned (tree : node) (roots : list string) : ModuleGraph :=
  match scan tree roots with
  | Ok (_, g) => g
  | Raise _ => init host
  end.


(** [pkg_graph] after [parse_file('__init__.py', '/r/proj/pkg')] in [self_tree] *)
Definition self_graph : ModuleGraph :=
  match parse_file (fs self_tree) host "__init__.py" "/r/proj/pkg" pkg_graph with
  | Ok (_, g) => g
  | Raise _ => pkg_graph
  end.

(** a set lists its elements in the opposite order *)
Definition backwards (X : gset string) : list string := reverse (elements X).

End Fixture.

(** ** The rest of checks.py, and what the lemmas below speak of *)

(** [_HasRelativeImportCheck]: the visitor's flag after the visit of [node].
    The class has no [visit_Import]; a plain import is visited generically
    and holds no from-import. *)
Fixpoint visit_rel (node : ast) (flag : bool) : bool :=
  match node with
  | Import _ => flag
  | ImportFrom _ _ level => if bool_decide (level ≠ 0) then true else flag
  | Node children =>
      (fix visit_list (l : list ast) (flag : bool) : bool :=
         match l with
         | [] => flag
         | child :: rest => visit_list rest (visit_rel child flag)
         end) children flag
  end.

Fixpoint visit_rel_list (l : list ast) (flag : bool) : bool :=
  match l with
  | [] => flag
  | child :: rest => visit_rel_list rest (visit_rel child flag)
  end.

Definition has_relative_import (host : interpreter) (source : string) : result bool :=
  root ← parse host source;
  Ok (visit_rel root false).

(** [n] is a from-import of a nonzero level. *)
Definition is_relative (n : ast) : Prop :=
  match n with
  | ImportFrom _ _ level => level ≠ 0
  | _ => False
  end.

(** the name that [visit_ImportFrom] of [ImportFinder] gives an alias *)
Definition full_name (module : option string) (a : alias) : string :=
  match module with
  | Some m => if Py.truthy m then m +:+ "." +:+ alias_name a else alias_name a
  | None => alias_name a
  end.

(** [imp] is the descriptor that [ImportFinder] records for an alias of the
    import statement [n]. *)
Definition describes (n : ast) (imp : ImportInfo.t) : Prop :=
  match n with
  | Import names => ∃ a, a ∈ names ∧ imp = ImportInfo.make (alias_name a) None
  | ImportFrom module names level =>
      ∃ a, a ∈ names ∧ imp = ImportInfo.make (full_name module a) (Some level)
  | Node _ => False
  end.

(** the descriptors that [ImportFinder] appends when it visits the one node
    [n]: one for each alias of an import statement, in the order of the
    aliases; none for any other node *)
Definition descriptors (n : ast) : list ImportInfo.t :=
  match n with
  | Import names => (λ a, ImportInfo.make (alias_name a) None) <$> names
  | ImportFrom module names level =>
      (λ a, ImportInfo.make (full_name module a) (Some level)) <$> names
  | Node _ => []
  end.

(** [module_name] is the canonical name of the file that the lookup of
    [imp_name] settles on. *)
Definition derived_from (fs : filesystem) (paths : list string)
    (extrapath : option string) (imp_name module_name : string) : Prop :=
  ∃ full_path,
    found_path fs (file_of imp_name) extrapath paths = Some full_path ∧
    _find_module_name fs (file_of imp_name) (Py.dirname full_path) = Ok module_name.

(** Every entry of the cache holds the name that a lookup of its key would
    derive now. *)
Definition cache_exact (fs : filesystem) (g : ModuleGraph) : Prop :=
  ∀ imp_name extrapath module_name,
    _module_cache g !! (imp_name, extrapath) = Some module_name →
    derived_from fs (_paths g) extrapath imp_name module_name.

(** the directories that [os.walk(path)] yields, in order *)
Definition walk_roots (fs : filesystem) (path : string) : list string :=
  (λ triple, triple.1.1) <$> walk fs path.

(** the files of a directory that [parse_paths] hands to [parse_file] *)
Definition scanned_file (file : string) : bool :=
  Py.endswith file ".py" && negb (bool_decide (file = "setup.py")).

(** every registered module was read from a file that [parse_paths] hands to
    [parse_file] *)
Definition from_scanned_files (g : ModuleGraph) : Prop :=
  ∀ key m, _modules g !! key = Some m → scanned_file (file_name m) = true.

(** [S] is a set of items that each depend on another item of the set: the
    dependencies among them run in a circle. *)
Definition cyclic (data : gmap string (gset string)) (S : gset string) : Prop :=
  S ≠ ∅ ∧
  ∀ a, a ∈ S → ∃ dep b, data !! a = Some dep ∧ b ∈ dep ∧ b ≠ a ∧ b ∈ S.

(** all dependencies are keys, and no item depends on itself *)
Definition closed_irrefl (data : gmap string (gset string)) : Prop :=
  (∀ a dep b, data !! a = Some dep → b ∈ dep → b ∈ dom data) ∧
  (∀ a dep, data !! a = Some dep → a ∉ dep).

(** ** More fixtures *)

Module MoreFixtures.
Import TreeFs Fixture.

(** a module file [pkg/sub.py] beside a package [pkg/sub] *)
Definition collide_tree : node :=
  Dir [("r", Dir [("proj", Dir [("pkg", Dir [("__init__.py", File "");
                                              ("sub.py", File "");
                                              ("sub", Dir [("__init__.py", File "")])])])])].

(** a project directory [pkg] that holds [setup.py] and no other file, with
    the package [sub] inside *)
Definition setup_tree : node :=
  Dir [("r", Dir [("proj", Dir [("pkg", Dir [("setup.py", File "");
                                              ("sub", Dir [("__init__.py", File "");
                                                           ("mod.py", File "")])])])])].

(** [pkg_tree] with a directory [.pytest_cache] beside [pkg] *)
Definition stray_tree : node :=
  Dir [("r", Dir [("proj", Dir [(".pytest_cache", Dir []);
                                ("pkg", Dir [("__init__.py", File "");
                                             ("sub", Dir [("__init__.py", File "");
                                                          ("mod.py", File "")])])])])].

(** [chain_tree] scanned *)
Definition chain_graph : ModuleGraph := scanned chain_tree ["/r/proj"].

(** [pkg_tree] scanned: three modules, none of which imports anything *)
Definition plain_graph : ModuleGraph := scanned pkg_tree ["/r/proj"].

(** two modules that import each other *)
Definition mutual_graph : ModuleGraph :=
  {| _modules :=
       <["a" := {| module_name := "a"; file_name := "a.py"; is_package := false;
                   content := "import b"; imports := {["b"]} |}]>
       (<["b" := {| module_name := "b"; file_name := "b.py"; is_package := false;
                    content := "import a"; imports := {["a"]} |}]> ∅);
     _module_cache := ∅;
     _paths := [] |}.

End MoreFixtures.

(** * Facts *)

(** ** Strings *)

Section string_facts.
Implicit Types (s t u : string) (a b c : ascii).

Lemma append_cons a s t : String a s +:+ t = String a (s +:+ t).
Proof. reflexivity. Qed.

Lemma append_nil s : "" +:+ s = s.
Proof. reflexivity. Qed.


Lemma append_assoc s t u : (s +:+ t) +:+ u = s +:+ (t +:+ u).
Proof. induction s as [|a s IH]; [done|]. by rewrite !append_cons, IH. Qed.

Lemma length_append s t : String.length (s +:+ t) = (String.length s + String.length t)%nat.
Proof. induction s as [|a s IH]; [done|]. rewrite append_cons. simpl. by rewrite IH. Qed.

Lemma has_char_app c s t : Py.has_char c (s +:+ t) = Py.has_char c s || Py.has_char c t.
Proof.
  induction s as [|a s IH]; [done|]. rewrite append_cons. simpl.
  by rewrite IH, orb_assoc.
Qed.

Lemma split_nonempty c s : Py.split c s ≠ [].
Proof.
  destruct s as [|a s]; [done|]. simpl. case_bool_decide; [done|].
  by destruct (Py.split c s).
Qed.

Lemma split_no_sep c s : Py.has_char c s = false → Py.split c s = [s].
Proof.
  induction s as [|a s IH]; [done|]. simpl. intros [Ha Hs]%orb_false_elim.
  rewrite Ha. by rewrite IH.
Qed.

Lemma split_app c s t : Py.split c (s +:+ String c t) = (Py.split c s ++ Py.split c t)%list.
Proof.
  induction s as [|a s IH].
  - rewrite append_nil. simpl. by rewrite bool_decide_true.
  - rewrite append_cons. simpl. rewrite IH. case_bool_decide; [done|].
    pose proof (split_nonempty c s). by destruct (Py.split c s).
Qed.


Lemma join_snoc sep l x :
  l ≠ [] → Py.join sep (l ++ [x]) = Py.join sep l +:+ sep +:+ x.
Proof.
  unfold Py.join. induction l as [|h l IH]; [done|]. intros _.
  destruct l as [|h' l]; [done|].
  change (String.concat sep ((h :: h' :: l) ++ [x])%list)
    with (h +:+ sep +:+ String.concat sep ((h' :: l) ++ [x])%list).
  rewrite IH by done.
  change (String.concat sep (h :: h' :: l)) with (h +:+ sep +:+ String.concat sep (h' :: l)).
  by rewrite !append_assoc.
Qed.





Lemma prefix_cons_ne a b s t : a ≠ b → String.prefix (String a s) (String b t) = false.
Proof. intros Hne. simpl. by destruct (Ascii.ascii_dec a b). Qed.

Lemma before_first_cons pat a s :
  Py.before_first pat (String a s) =
  if String.prefix pat (String a s) then "" else String a (Py.before_first pat s).
Proof. reflexivity. Qed.

Lemma before_first_no_dot s :
  Py.has_char "." s = false → Py.before_first ".py" (s +:+ ".py") = s.
Proof.
  induction s as [|a s IH]; [done|]. intros H. simpl in H.
  apply orb_false_elim in H as [Ha Hs]. apply bool_decide_eq_false in Ha.
  rewrite append_cons, before_first_cons, prefix_cons_ne by congruence.
  by rewrite IH.
Qed.

Lemma last_segment_snoc l s : Py.last_segment (l ++ [s]) = s.
Proof. unfold Py.last_segment. apply last_last. Qed.


Lemma endswith_app s t : Py.endswith (s +:+ t) t = true.
Proof.
  induction s as [|a s IH].
  - rewrite append_nil. destruct t; cbn [Py.endswith]; by rewrite bool_decide_true.
  - rewrite append_cons. cbn [Py.endswith]. by rewrite IH, orb_true_r.
Qed.

Lemma substring_prefix s t : String.substring 0 (String.length s) (s +:+ t) = s.
Proof.
  induction s as [|a s IH].
  - rewrite append_nil. by destruct t.
  - rewrite append_cons. simpl. by rewrite IH.
Qed.

Lemma drop_last_app s t : Py.drop_last (String.length t) (s +:+ t) = s.
Proof.
  unfold Py.drop_last. rewrite length_append, Nat.add_sub. apply substring_prefix.
Qed.







Lemma contains_nil_false pat : pat ≠ "" → Py.contains pat "" = false.
Proof. by destruct pat. Qed.

End string_facts.

(** ** The ordering *)

Section toposort_facts.
Import Toposort.
Implicit Types (data : gmap string (gset string)) (ordered : gset string).

Lemma elem_of_ordered_of data x : x ∈ ordered_of data ↔ data !! x = Some ∅.
Proof.
  unfold ordered_of. rewrite elem_of_dom. split.
  - intros [d Hd]. apply map_lookup_filter_Some in Hd as [Hd Hempty].
    simpl in Hempty. by subst.
  - intros Hx. exists ∅. by apply map_lookup_filter_Some.
Qed.

Lemma lookup_remove_ordered ordered data k :
  remove_ordered ordered data !! k =
  if decide (k ∈ ordered) then None else (λ dep, dep ∖ ordered) <$> data !! k.
Proof.
  unfold remove_ordered. rewrite lookup_fmap. case_decide as Hk.
  - rewrite (proj2 (map_lookup_filter_None _ _ _)); [done|].
    right. intros d _. simpl. tauto.
  - destruct (data !! k) as [d|] eqn:Hd.
    + by rewrite (map_lookup_filter_Some_2 _ _ _ _ Hd).
    + rewrite (proj2 (map_lookup_filter_None _ _ _)); [done|]. by left.
Qed.

Lemma dom_remove_ordered ordered data :
  dom (remove_ordered ordered data) = dom data ∖ ordered.
Proof.
  apply set_eq. intros k. rewrite elem_of_difference, !elem_of_dom.
  rewrite lookup_remove_ordered. case_decide; rewrite ?fmap_is_Some.
  - split; [by intros [? ?]|tauto].
  - tauto.
Qed.

Lemma ordered_of_subseteq data : ordered_of data ⊆ dom data.
Proof. intros x Hx. apply elem_of_ordered_of in Hx. by apply elem_of_dom. Qed.

Lemma size_remove_ordered data :
  ordered_of data ≠ ∅ → (size (remove_ordered (ordered_of data) data) < size data)%nat.
Proof.
  intros Hne. rewrite <-!size_dom, dom_remove_ordered.
  apply subset_size. apply set_choose_L in Hne as [x Hx].
  pose proof (ordered_of_subseteq data) as Hsub. split.
  - intros y Hy. by apply elem_of_difference in Hy as [? _].
  - intros Hall. specialize (Hall x (Hsub x Hx)).
    by apply elem_of_difference in Hall as [_ ?].
Qed.

Lemma ordered_of_empty : ordered_of ∅ = ∅.
Proof.
  apply set_eq. intros x. rewrite elem_of_ordered_of, lookup_empty. set_solver.
Qed.

Lemma loop_none fuel data :
  ordered_of data = ∅ →
  loop fuel data = if decide (data = ∅) then Ok [] else Raise CircularDependencyError.
Proof. intros H. destruct fuel; unfold loop; fold loop; by rewrite decide_True. Qed.

Lemma loop_some fuel data :
  ordered_of data ≠ ∅ →
  loop (S fuel) data =
  (λ rest, ordered_of data :: rest) <$> loop fuel (remove_ordered (ordered_of data) data).
Proof. intros H. unfold loop; fold loop. by rewrite decide_False. Qed.

Lemma loop_empty fuel : loop fuel ∅ = Ok [].
Proof. rewrite loop_none by apply ordered_of_empty. by rewrite decide_True. Qed.

(** The fuel given to [loop] does not matter once it reaches [size data]. *)
Lemma loop_fuel data fuel1 fuel2 :
  (size data ≤ fuel1)%nat → (size data ≤ fuel2)%nat → loop fuel1 data = loop fuel2 data.
Proof.
  revert data fuel2. induction fuel1 as [|fuel1 IH]; intros data fuel2 H1 H2.
  - assert (data = ∅) as -> by (apply map_size_empty_inv; lia).
    by rewrite !loop_empty.
  - destruct (decide (ordered_of data = ∅)) as [Hnone|Hne].
    + by rewrite !loop_none.
    + pose proof (size_remove_ordered data Hne).
      destruct fuel2 as [|fuel2]; [lia|].
      rewrite !loop_some by done. rewrite (IH _ fuel2); [done|lia|lia].
Qed.

Lemma before_app_r (l1 l2 : list string) x y : before l2 x y → before (l1 ++ l2)%list x y.
Proof.
  intros (i & j & Hij & Hi & Hj). exists (length l1 + i)%nat, (length l1 + j)%nat.
  split; [lia|]. by rewrite !lookup_app_r, !Nat.add_sub' by lia.
Qed.

Lemma before_app_split (l1 l2 : list string) x y :
  x ∈ l1 → y ∈ l2 → before (l1 ++ l2)%list x y.
Proof.
  intros [i Hi]%list_elem_of_lookup [j Hj]%list_elem_of_lookup.
  exists i, (length l1 + j)%nat. pose proof (lookup_lt_Some _ _ _ Hi).
  split; [lia|]. split.
  - by rewrite lookup_app_l.
  - by rewrite lookup_app_r, Nat.add_sub' by lia.
Qed.

Section flattened.
Context (iter : gset string → list string).
Context (iter_perm : ∀ X, iter X ≡ₚ elements X).

Lemma elem_of_sorted_iter X x : x ∈ sorted (iter X) ↔ x ∈ X.
Proof.
  unfold sorted. rewrite merge_sort_Permutation, iter_perm. apply elem_of_elements.
Qed.

Lemma NoDup_sorted_iter X : NoDup (sorted (iter X)).
Proof.
  unfold sorted. rewrite merge_sort_Permutation, iter_perm. apply NoDup_elements.
Qed.

Lemma flatten_nil : flatten iter [] = [].
Proof. done. Qed.

Lemma flatten_cons d layers :
  flatten iter (d :: layers) = (sorted (iter d) ++ flatten iter layers)%list.
Proof. done. Qed.

(** What a run of [loop] that ends without an exception has yielded: every
    item once, and every item after all its dependencies. *)
Lemma loop_flatten fuel data layers :
  (size data ≤ fuel)%nat →
  loop fuel data = Ok layers →
  (∀ x, x ∈ flatten iter layers ↔ x ∈ dom data) ∧
  NoDup (flatten iter layers) ∧
  (∀ a b dep, data !! a = Some dep → b ∈ dep → before (flatten iter layers) b a).
Proof.
  revert data layers. induction fuel as [|fuel IH]; intros data layers Hsize Hloop.
  - assert (data = ∅) as -> by (apply map_size_empty_inv; lia).
    rewrite loop_empty in Hloop. injection Hloop as <-. rewrite flatten_nil.
    split_and!.
    + intros x. rewrite dom_empty_L. split; [by intros ?%elem_of_nil|by intros ?%elem_of_empty].
    + constructor.
    + intros a b dep Ha. by rewrite lookup_empty in Ha.
  - destruct (decide (ordered_of data = ∅)) as [Hnone|Hne].
    + rewrite loop_none in Hloop by done.
      destruct (decide (data = ∅)) as [->|]; [|done]. injection Hloop as <-.
      rewrite flatten_nil. split_and!.
      * intros x. rewrite dom_empty_L. split; [by intros ?%elem_of_nil|by intros ?%elem_of_empty].
      * constructor.
      * intros a b dep Ha. by rewrite lookup_empty in Ha.
    + pose proof (size_remove_ordered data Hne) as Hlt.
      rewrite loop_some in Hloop by done.
      destruct (loop fuel (remove_ordered (ordered_of data) data)) as [rest|]
        eqn:Hrest; [|done].
      injection Hloop as <-.
      destruct (IH (remove_ordered (ordered_of data) data) rest) as (Hdom & Hnodup & Hord);
        [lia|done|].
      assert (∀ x, x ∈ flatten iter rest ↔ x ∈ dom data ∧ x ∉ ordered_of data) as Hdom'.
      { intros x. rewrite Hdom, dom_remove_ordered. apply elem_of_difference. }
      rewrite flatten_cons.
      split_and!.
      * intros x. rewrite elem_of_app, elem_of_sorted_iter, Hdom'.
        pose proof (ordered_of_subseteq data x).
        destruct (decide (x ∈ ordered_of data)); tauto.
      * apply NoDup_app. split_and!; [apply NoDup_sorted_iter| |done].
        intros x Hx Hx'. apply elem_of_sorted_iter in Hx. apply Hdom' in Hx'. tauto.
      * intros a b dep Ha Hb.
        assert (a ∉ ordered_of data) as Hna.
        { rewrite elem_of_ordered_of, Ha. intros [= ->]. by apply elem_of_empty in Hb. }
        destruct (decide (b ∈ ordered_of data)) as [Hbo|Hbo].
        -- apply before_app_split; [by apply elem_of_sorted_iter|].
           apply Hdom'. split; [by apply elem_of_dom|done].
        -- apply before_app_r. apply (Hord a b (dep ∖ ordered_of data)).
           ++ rewrite lookup_remove_ordered, decide_False by done. by rewrite Ha.
           ++ by apply elem_of_difference.
Qed.

End flattened.

End toposort_facts.

Section toposort_top.
Import Toposort.
Implicit Types (data : gmap string (gset string)).

Lemma lookup_discard_self data k :
  discard_self data !! k = (λ dep, dep ∖ {[k]}) <$> data !! k.
Proof. unfold discard_self. rewrite map_lookup_imap. by destruct (data !! k). Qed.

Lemma elem_of_all_deps data x :
  x ∈ map_fold (λ (_ : string) (dep acc : gset string), acc ∪ dep) ∅ data ↔
  ∃ k dep, data !! k = Some dep ∧ x ∈ dep.
Proof.
  eapply (map_fold_weak_ind
            (λ (acc : gset string) m, x ∈ acc ↔ ∃ k dep, m !! k = Some dep ∧ x ∈ dep)).
  - split; [by intros ?%elem_of_empty|]. intros (k & dep & Hk & _).
    by rewrite lookup_empty in Hk.
  - intros k dep m acc Hk IH. rewrite elem_of_union, IH. split.
    + intros [(k' & dep' & Hk' & Hx)|Hx].
      * exists k', dep'. split; [|done]. rewrite lookup_insert_ne; [done|].
        intros ->. by rewrite Hk in Hk'.
      * exists k, dep. by rewrite lookup_insert_eq.
    + intros (k' & dep' & Hk' & Hx). destruct (decide (k = k')) as [->|Hne].
      * rewrite lookup_insert_eq in Hk'. injection Hk' as <-. by right.
      * rewrite lookup_insert_ne in Hk' by done. left. by exists k', dep'.
Qed.

Lemma elem_of_extra_items data x :
  x ∈ extra_items_in_deps data ↔
  (∃ k dep, data !! k = Some dep ∧ x ∈ dep) ∧ data !! x = None.
Proof.
  unfold extra_items_in_deps.
  by rewrite elem_of_difference, elem_of_all_deps, not_elem_of_dom.
Qed.

Lemma lookup_add_extra_Some data k dep :
  data !! k = Some dep → add_extra data !! k = Some dep.
Proof.
  intros Hk. unfold add_extra. rewrite lookup_union_r; [done|].
  apply lookup_gset_to_gmap_None. rewrite elem_of_extra_items, Hk. by intros [_ ?].
Qed.

Lemma dom_add_extra data x :
  x ∈ dom (add_extra data) ↔ x ∈ dom data ∨ ∃ k dep, data !! k = Some dep ∧ x ∈ dep.
Proof.
  unfold add_extra. rewrite dom_union_L, elem_of_union, dom_gset_to_gmap.
  rewrite elem_of_extra_items, <-not_elem_of_dom.
  destruct (decide (x ∈ dom data)); tauto.
Qed.

Section iter.
Context (iter : gset string → list string).
Context (iter_perm : ∀ X, iter X ≡ₚ elements X).

(** [toposort_flatten], when it returns: the order lists every key and
    every dependency once, and a dependency stands before each item that
    depends on it, the item itself apart. *)
Lemma toposort_flatten_order data order :
  toposort_flatten_iter iter data = Ok order →
  NoDup order ∧
  (∀ k, k ∈ dom data → k ∈ order) ∧
  (∀ a b dep, data !! a = Some dep → b ∈ dep → b ∈ order) ∧
  (∀ x, x ∈ order → x ∈ dom data ∨ ∃ k dep, data !! k = Some dep ∧ x ∈ dep) ∧
  (∀ a b dep, data !! a = Some dep → b ∈ dep → a ≠ b → before order b a).
Proof.
  unfold toposort_flatten_iter, toposort. intros Hflat.
  destruct (decide (data = ∅)) as [->|Hne].
  { injection Hflat as <-. split_and!.
    - constructor.
    - intros k. rewrite dom_empty_L. by intros ?%elem_of_empty.
    - intros a b dep Ha. by rewrite lookup_empty in Ha.
    - by intros x ?%elem_of_nil.
    - intros a b dep Ha. by rewrite lookup_empty in Ha. }
  destruct (loop _ _) as [layers|] eqn:Hloop; [|done]. injection Hflat as <-.
  apply (loop_flatten iter iter_perm) in Hloop as (Hdom & Hnodup & Hord); [|done].
  assert (∀ a b dep, data !! a = Some dep → b ∈ dep → a ≠ b →
            ∃ dep', discard_self data !! a = Some dep' ∧ b ∈ dep') as Hedge.
  { intros a b dep Ha Hb Hab. exists (dep ∖ {[a]}). rewrite lookup_discard_self, Ha.
    split; [done|]. apply elem_of_difference. split; [done|].
    rewrite elem_of_singleton. congruence. }
  split_and!.
  - done.
  - intros k [dep Hk]%elem_of_dom. apply Hdom, dom_add_extra. left.
    apply elem_of_dom. rewrite lookup_discard_self, Hk. by eexists.
  - intros a b dep Ha Hb. apply Hdom, dom_add_extra.
    destruct (decide (a = b)) as [->|Hab].
    + left. apply elem_of_dom. rewrite lookup_discard_self, Ha. by eexists.
    + right. destruct (Hedge a b dep Ha Hb Hab) as (dep' & ? & ?). by exists a, dep'.
  - intros x Hx. apply Hdom, dom_add_extra in Hx as [Hx|(k & dep' & Hk & Hx)].
    + left. apply elem_of_dom in Hx as [dep' Hx]. rewrite lookup_discard_self in Hx.
      apply elem_of_dom. destruct (data !! x); [by eexists|done].
    + right. rewrite lookup_discard_self in Hk.
      destruct (data !! k) as [dep|] eqn:Hdk; [|done]. injection Hk as <-.
      exists k, dep. split; [done|]. by apply elem_of_difference in Hx as [? _].
  - intros a b dep Ha Hb Hab. destruct (Hedge a b dep Ha Hb Hab) as (dep' & Ha' & Hb').
    apply (Hord a b dep'); [|done]. by apply lookup_add_extra_Some.
Qed.

End iter.

(** Sorting makes the order in which a set lists its elements irrelevant. *)
Lemma sorted_iter (iter1 iter2 : gset string → list string) X :
  iter1 X ≡ₚ elements X → iter2 X ≡ₚ elements X → sorted (iter1 X) = sorted (iter2 X).
Proof.
  intros H1 H2. unfold sorted.
  apply (Sorted_unique String.le); [apply Sorted_merge_sort, _..|].
  by rewrite !merge_sort_Permutation, H1, H2.
Qed.

Lemma toposort_flatten_iter_irrel (iter1 iter2 : gset string → list string) data :
  (∀ X, iter1 X ≡ₚ elements X) → (∀ X, iter2 X ≡ₚ elements X) →
  toposort_flatten_iter iter1 data = toposort_flatten_iter iter2 data.
Proof.
  intros H1 H2. unfold toposort_flatten_iter. destruct (toposort data) as [layers|]; [|done].
  simpl. f_equal. unfold flatten. f_equal.
  apply list_fmap_ext. intros _ d _. by apply sorted_iter.
Qed.

End toposort_top.

(** ** Pack emission *)

Lemma collect_Ok g order out :
  collect g order = Ok out →
  Forall2 (λ k r, ∃ m, _modules g !! k = Some m ∧ r = to_dict m) order out.
Proof.
  revert out. induction order as [|k order IH]; intros out Hc.
  - injection Hc as <-. constructor.
  - simpl in Hc. unfold module_record in Hc.
    destruct (_modules g !! k) as [m|] eqn:Hk; [|done]. simpl in Hc.
    destruct (collect g order) as [rs|]; [|done]. injection Hc as <-.
    constructor; [by exists m|by apply IH].
Qed.

Lemma collect_names g order out :
  registry_named g → collect g order = Ok out → rec_name <$> out = order.
Proof.
  intros Hnamed Hc. apply collect_Ok in Hc.
  induction Hc as [|k r order out (m & Hk & ->) _ IH]; [done|].
  rewrite fmap_cons, IH. simpl. by rewrite (Hnamed k m Hk).
Qed.

Lemma collect_unregistered g order k :
  k ∈ order → _modules g !! k = None → ∃ k', collect g order = Raise (KeyError k').
Proof.
  intros Hin Hk. induction order as [|k0 order IH]; [by apply elem_of_nil in Hin|].
  simpl. unfold module_record. destruct (_modules g !! k0) as [m|] eqn:Hk0.
  - simpl. apply elem_of_cons in Hin as [->|Hin]; [congruence|].
    destruct (IH Hin) as [k' ->]. by exists k'.
  - by exists k0.
Qed.

(** A dependency that names no registered module is still put in the order by
    [toposort_flatten], and [generate_data] then fails on its lookup in
    [_modules]: with such an edge no pack comes out. *)
Lemma generate_data_dangling g a ma d :
  _modules g !! a = Some ma → d ∈ imports ma → _modules g !! d = None →
  ∃ e, generate_data g = Raise e.
Proof.
  intros Ha Hd Hnone. unfold generate_data, generate_data_iter, _build_dependency_data_iter.
  destruct (Toposort.toposort_flatten_iter _ _) as [order|e] eqn:Horder; [|by exists e].
  apply toposort_flatten_order in Horder as (_ & _ & Hdeps & _); [|done].
  simpl. assert (d ∈ order) as Hin.
  { apply (Hdeps a d (imports ma)); [|done]. by rewrite lookup_fmap, Ha. }
  destruct (collect_unregistered g order d Hin Hnone) as [k' ->]. by eexists.
Qed.

(** C6. When [generate_data] returns a pack, every recorded
    dependency edge between two different modules is respected: the record
    of the module depended upon stands strictly before the record of the
    module that depends on it, and no name occurs twice in the pack. *)
Theorem generate_data_dependencies_first g out a b ma :
  registry_named g →
  generate_data g = Ok out →
  _modules g !! a = Some ma → b ∈ imports ma → a ≠ b →
  NoDup (rec_name <$> out) ∧ before (rec_name <$> out) b a.
Proof.
  intros Hnamed Hgen Ha Hb Hab.
  unfold generate_data, generate_data_iter, _build_dependency_data_iter in Hgen.
  destruct (Toposort.toposort_flatten_iter _ _) as [order|] eqn:Horder; [|done].
  simpl in Hgen. rewrite (collect_names g order out Hnamed Hgen).
  apply toposort_flatten_order in Horder as (Hnodup & _ & _ & _ & Hord); [|done].
  split; [done|]. apply (Hord a b (imports ma)); [|done..].
  by rewrite lookup_fmap, Ha.
Qed.

(** ** The import-style classifier *)

Lemma ast_nested_ind (P : ast → Prop) :
  (∀ names, P (Import names)) →
  (∀ m names level, P (ImportFrom m names level)) →
  (∀ children, Forall P children → P (Node children)) →
  ∀ t, P t.
Proof.
  intros HI HF HN. fix IH 1. intros [names|m names level|children].
  - apply HI.
  - apply HF.
  - apply HN. induction children as [|c cs IHcs]; constructor; [apply IH|apply IHcs].
Qed.

Lemma startswith_spec s pre : Py.startswith s pre = true ↔ ∃ rest, s = pre +:+ rest.
Proof.
  unfold Py.startswith. revert s. induction pre as [|a pre IH]; intros s; simpl.
  - destruct s; split; eauto.
  - destruct s as [|b s]; simpl.
    + split; [done|]. by intros [rest ?].
    + destruct (Ascii.ascii_dec a b) as [->|Hne].
      * rewrite IH. split; intros [rest Hrest]; exists rest;
          rewrite ?append_cons in *; congruence.
      * split; [done|]. intros [rest Hrest]. rewrite append_cons in Hrest. congruence.
Qed.

Lemma is_or_under_spec module name :
  bool_decide (name = module) || Py.startswith name (module +:+ ".") = true ↔
  is_or_under module name.
Proof.
  unfold is_or_under. rewrite orb_true_iff, bool_decide_eq_true, startswith_spec.
  split; (intros [?|[rest Hrest]]; [by left|right; exists rest]).
  - by rewrite Hrest, append_assoc.
  - by rewrite Hrest, append_assoc.
Qed.

Lemma names_match_spec module names :
  names_match module names = true ↔ ∃ a, a ∈ names ∧ is_or_under module (alias_name a).
Proof.
  unfold names_match. rewrite existsb_exists. setoid_rewrite is_or_under_spec.
  by setoid_rewrite list_elem_of_In.
Qed.

Lemma visit_abs_Node module children flag :
  visit_abs module (Node children) flag = visit_abs_list module children flag.
Proof.
  revert flag. induction children as [|c cs IH]; intros flag; [done|].
  simpl. destruct (visit_abs module c flag); [apply IH|done].
Qed.

(** The flag is only ever raised; after the visit it is set when it was set
    before or some node of the tree imports the module. *)
Lemma visit_abs_spec module t : ∀ flag,
  parsed_shape t →
  ∃ b, visit_abs module t flag = Ok b ∧
       (b = true ↔ flag = true ∨ ∃ n, n ∈ nodes t ∧ imports_module module n).
Proof.
  induction t as [names|m names level|children IH] using ast_nested_ind; intros flag Hshape.
  - eexists. split; [done|]. rewrite orb_true_iff, names_match_spec. simpl. split.
    + intros [H|H]; [right|by left]. exists (Import names). split; [by left|done].
    + intros [H|(n & Hn & Himp)]; [by right|left].
      apply list_elem_of_singleton in Hn as ->. done.
  - simpl. destruct level as [|level].
    + destruct m as [m|]; [|exfalso; apply (Hshape names); by left].
      rewrite bool_decide_true by done. eexists. split; [done|].
      rewrite orb_true_iff, is_or_under_spec. split.
      * intros [H|H]; [right|by left]. exists (ImportFrom (Some m) names 0).
        split; [by left|done].
      * intros [H|(n & Hn & Himp)]; [by right|left].
        apply list_elem_of_singleton in Hn as ->. done.
    + rewrite bool_decide_false by done. eexists. split; [done|]. split.
      * by left.
      * intros [H|(n & Hn & Himp)]; [done|].
        apply list_elem_of_singleton in Hn as ->. destruct m; done.
  - rewrite visit_abs_Node.
    assert (∀ c, c ∈ children → parsed_shape c) as Hshapes.
    { intros c Hc names Hin. apply (Hshape names). simpl. right.
      apply list_elem_of_In, in_flat_map. exists c.
      split; by apply list_elem_of_In. }
    assert (∀ flag, ∃ b, visit_abs_list module children flag = Ok b ∧
              (b = true ↔ flag = true ∨
                 ∃ c n, c ∈ children ∧ n ∈ nodes c ∧ imports_module module n)) as Hlist.
    { clear Hshape. induction children as [|c cs IHcs]; intros flag'.
      - exists flag'. split; [done|]. split; [by left|].
        intros [?|(c & n & Hc & _)]; [done|]. by apply elem_of_nil in Hc.
      - apply Forall_cons in IH as [IHc IHrest]. simpl.
        destruct (IHc flag') as (b1 & -> & Hb1); [apply Hshapes; by left|].
        destruct (IHcs IHrest (λ c' Hc', Hshapes c' (list_elem_of_further _ _ _ Hc')) b1)
          as (b2 & -> & Hb2).
        exists b2. split; [done|]. rewrite Hb2, Hb1. split.
        + intros [[?|(n & Hn & Himp)]|(c' & n & Hc' & Hn & Himp)].
          * by left.
          * right. exists c, n. split; [by left|done].
          * right. exists c', n. split; [by right|done].
        + intros [?|(c' & n & Hc' & Hn & Himp)]; [by left; left|].
          apply elem_of_cons in Hc' as [->|Hc'].
          * left. right. by exists n.
          * right. by exists c', n. }
    destruct (Hlist flag) as (b & -> & Hb). exists b. split; [done|].
    rewrite Hb. split.
    + intros [?|(c & n & Hc & Hn & Himp)]; [by left|right].
      exists n. split; [|done]. simpl. right.
      apply list_elem_of_In, in_flat_map. exists c. split; by apply list_elem_of_In.
    + intros [?|(n & Hn & Himp)]; [by left|right].
      simpl in Hn. apply elem_of_cons in Hn as [->|Hn]; [done|].
      apply list_elem_of_In, in_flat_map in Hn as (c & Hc & Hn).
      exists c, n. split_and!; [by apply list_elem_of_In|by apply list_elem_of_In|done].
Qed.

(** C10. On a source text that parses, [has_absolute_import_of_module]
    returns, and it returns [True] exactly when some node of the tree is a
    plain import, or a from-import of level 0, of the module or of a dotted
    submodule of it; a relative from-import never counts, and neither does a
    name that continues the module's name with anything but a dot. *)
Theorem has_absolute_import_of_module_spec host source module root :
  ast_parse host source = Some root →
  parsed_shape root →
  ∃ b, has_absolute_import_of_module host source module = Ok b ∧
       (b = true ↔ ∃ n, n ∈ nodes root ∧ imports_module module n) ∧
       (∀ m names level, level ≠ 0 → ¬ imports_module module (ImportFrom m names level)) ∧
       (∀ c rest, c ≠ "."%char → ¬ is_or_under module (module +:+ String c rest)).
Proof.
  intros Hparse Hshape. unfold has_absolute_import_of_module, parse. rewrite Hparse. simpl.
  destruct (visit_abs_spec module root false Hshape) as (b & -> & Hb).
  exists b. split_and!; [done| | |].
  - rewrite Hb. split; [by intros [?|?]|by right].
  - intros m names [|level] Hlevel; [done|]. destruct m; simpl; tauto.
  - intros c rest Hc [Heq|[rest' Heq]].
    + apply (f_equal String.length) in Heq. rewrite length_append in Heq.
      simpl in Heq. lia.
    + apply (inj (String.app module)) in Heq. rewrite append_cons in Heq. congruence.
Qed.

(** ** Name derivation *)

Section name_facts.
Context (fs : filesystem).
Implicit Types (root pkg sub modname : string).













End name_facts.

(** ** The resolver *)

Section resolver_facts.
Context (fs : filesystem) (host : interpreter).
Implicit Types (g : ModuleGraph) (name imp_name : string) (extrapath : option string).

Lemma get_name_via_module_inv imp_name extrapath g r g' :
  _get_name_via_module fs imp_name extrapath g = Ok (r, g') →
  (r = None ∧ g' = g ∧ found_path fs (file_of imp_name) extrapath (_paths g) = None) ∨
  (∃ full_path module_name,
     found_path fs (file_of imp_name) extrapath (_paths g) = Some full_path ∧
     _find_module_name fs (file_of imp_name) (Py.dirname full_path) = Ok module_name ∧
     r = Some module_name ∧ g' = cache_store imp_name extrapath module_name g).
Proof.
  unfold _get_name_via_module.
  destruct (found_path _ _ _ _) as [full_path|] eqn:Hfound.
  - destruct (_find_module_name _ _ _) as [module_name|] eqn:Hname; [|done].
    simpl. intros [= <- <-]. right. by exists full_path, module_name.
  - intros [= <- <-]. by left.
Qed.

Lemma get_name_via_module_paths imp_name extrapath g1 g2 r g1' :
  _paths g2 = _paths g1 →
  _get_name_via_module fs imp_name extrapath g1 = Ok (r, g1') →
  _get_name_via_module fs imp_name extrapath g2
    = Ok (r, match r with
             | Some module_name => cache_store imp_name extrapath module_name g2
             | None => g2
             end).
Proof.
  intros Hpaths. unfold _get_name_via_module. rewrite Hpaths.
  destruct (found_path _ _ _ _); [|by intros [= <- <-]].
  destruct (_find_module_name _ _ _); [|done]. simpl. by intros [= <- <-].
Qed.


Lemma get_name_via_module_some imp_name extrapath g full_path module_name :
  found_path fs (file_of imp_name) extrapath (_paths g) = Some full_path →
  _find_module_name fs (file_of imp_name) (Py.dirname full_path) = Ok module_name →
  _get_name_via_module fs imp_name extrapath g
    = Ok (Some module_name, cache_store imp_name extrapath module_name g).
Proof. intros H1 H2. unfold _get_name_via_module. by rewrite H1, H2. Qed.

Lemma found_empty r : found r = false → r = None ∨ r = Some "".
Proof.
  destruct r as [s|]; [|by left]. unfold found, Py.truthy.
  case_bool_decide; [right; by subst|done].
Qed.

Lemma cache_grown_refl g : cache_grown g g.
Proof. done. Qed.

Lemma cache_grown_trans g1 g2 g3 : cache_grown g1 g2 → cache_grown g2 g3 → cache_grown g1 g3.
Proof.
  intros (Hm1 & Hp1 & Hc1) (Hm2 & Hp2 & Hc2). split_and!; [congruence..|].
  intros key Hkey. by apply Hc2, Hc1.
Qed.

Lemma cache_grown_store imp_name extrapath module_name g :
  cache_grown g (cache_store imp_name extrapath module_name g).
Proof.
  split_and!; [done..|]. intros key Hkey. simpl.
  destruct (decide ((imp_name, extrapath) = key)) as [<-|Hne].
  - rewrite lookup_insert_eq. by eexists.
  - by rewrite lookup_insert_ne.
Qed.

Lemma get_name_via_module_grown imp_name extrapath g r g' :
  _get_name_via_module fs imp_name extrapath g = Ok (r, g') → cache_grown g g'.
Proof.
  intros [(_ & -> & _)|(? & ? & _ & _ & _ & ->)]%get_name_via_module_inv.
  - apply cache_grown_refl.
  - apply cache_grown_store.
Qed.

Lemma lookup_loop_falsy fuel name extrapath g :
  Py.truthy name = false → lookup_loop fs fuel name extrapath g = Ok (None, g).
Proof. intros H. destruct fuel; simpl; by rewrite H. Qed.

Lemma lookup_loop_S fuel name extrapath g :
  Py.truthy name = true →
  lookup_loop fs (S fuel) name extrapath g =
  match _get_name_via_module fs name extrapath g with
  | Ok (result, g1) =>
      if found result then Ok (result, g1)
      else match _get_name_via_package fs name extrapath g1 with
           | Ok (result, g2) =>
               if found result then Ok (result, g2)
               else lookup_loop fs fuel (Py.rpartition_head "." name) extrapath g2
           | Raise e => Raise e
           end
  | Raise e => Raise e
  end.
Proof.
  intros H. simpl. rewrite H.
  destruct (_get_name_via_module fs name extrapath g) as [[r g1]|]; [|done]. simpl.
  destruct (found r); [done|].
  destruct (_get_name_via_package fs name extrapath g1) as [[r2 g2]|]; [|done]. simpl.
  by destruct (found r2).
Qed.



(** What a run of the loop leaves behind: the registry and the search path
    are untouched and the cache has only grown; every entry of the cache is
    an old one, an empty name, or the name returned; and a name is returned
    only when it is not empty. *)
Lemma lookup_loop_inv fuel name extrapath g r g' :
  lookup_loop fs fuel name extrapath g = Ok (r, g') →
  cache_grown g g' ∧
  (∀ key c, _module_cache g' !! key = Some c →
     _module_cache g !! key = Some c ∨ c = "" ∨ r = Some c) ∧
  (r = None ∨ found r = true).
Proof.
  revert name g. induction fuel as [|fuel IH]; intros name g Hloop.
  - assert (r = None ∧ g' = g) as [-> ->].
    { simpl in Hloop. destruct (Py.truthy name); by injection Hloop as <- <-. }
    split_and!; [apply cache_grown_refl|by left|by left].
  - destruct (Py.truthy name) eqn:Hname.
    2:{ rewrite lookup_loop_falsy in Hloop by done. injection Hloop as <- <-.
        split_and!; [apply cache_grown_refl|by left|by left]. }
    rewrite lookup_loop_S in Hloop by done.
    destruct (_get_name_via_module fs name extrapath g) as [[r1 g1]|] eqn:H1; [|done].
    pose proof (get_name_via_module_grown _ _ _ _ _ H1) as Hg1.
    assert (∀ key c, _module_cache g1 !! key = Some c →
              _module_cache g !! key = Some c ∨ r1 = Some c) as He1.
    { apply get_name_via_module_inv in H1
        as [(_ & -> & _)|(? & v & _ & _ & -> & ->)]; [by left|].
      intros key c. simpl. destruct (decide ((name, extrapath) = key)) as [<-|Hne].
      - rewrite lookup_insert_eq. intros [= <-]. by right.
      - rewrite lookup_insert_ne by done. by left. }
    destruct (found r1) eqn:Hf1.
    { injection Hloop as <- <-. split_and!; [done| |by right].
      intros key c Hc. destruct (He1 key c Hc); [by left|by right; right]. }
    destruct (_get_name_via_package fs name extrapath g1) as [[r2 g2]|] eqn:H2; [|done].
    pose proof (get_name_via_module_grown _ _ _ _ _ H2) as Hg2.
    assert (∀ key c, _module_cache g2 !! key = Some c →
              _module_cache g1 !! key = Some c ∨ r2 = Some c) as He2.
    { apply get_name_via_module_inv in H2
        as [(_ & -> & _)|(? & v & _ & _ & -> & ->)]; [by left|].
      intros key c. simpl.
      destruct (decide ((name +:+ ".__init__", extrapath) = key)) as [<-|Hne].
      - rewrite lookup_insert_eq. intros [= <-]. by right.
      - rewrite lookup_insert_ne by done. by left. }
    assert (∀ key c, _module_cache g2 !! key = Some c →
              _module_cache g !! key = Some c ∨ c = "" ∨ r2 = Some c) as He12.
    { intros key c Hc. destruct (He2 key c Hc) as [Hc1|?]; [|by right; right].
      destruct (He1 key c Hc1) as [?|Hr1]; [by left|]. right. left.
      destruct (found_empty _ Hf1); congruence. }
    destruct (found r2) eqn:Hf2.
    { injection Hloop as <- <-. split_and!; [|done|by right].
      by apply (cache_grown_trans _ g1). }
    destruct (IH _ _ Hloop) as (Hg3 & He3 & Hr).
    split_and!; [|  |done].
    + apply (cache_grown_trans _ g2); [|done]. by apply (cache_grown_trans _ g1).
    + intros key c Hc. destruct (He3 key c Hc) as [Hc2|?]; [|by right].
      destruct (He12 key c Hc2) as [?|[?|Hr2]]; [by left|by right; left|].
      right. left. destruct (found_empty _ Hf2); congruence.
Qed.

(** The name returned by the loop depends on the search path only. *)
Lemma lookup_loop_paths fuel name extrapath g1 g2 r g1' :
  _paths g2 = _paths g1 →
  lookup_loop fs fuel name extrapath g1 = Ok (r, g1') →
  ∃ g2', lookup_loop fs fuel name extrapath g2 = Ok (r, g2').
Proof.
  revert name g1 g2. induction fuel as [|fuel IH]; intros name g1 g2 Hpaths Hloop.
  - simpl in *. destruct (Py.truthy name); injection Hloop as <- <-; by eexists.
  - destruct (Py.truthy name) eqn:Hname.
    2:{ rewrite lookup_loop_falsy in * by done. injection Hloop as <- <-. by eexists. }
    rewrite lookup_loop_S in * by done.
    destruct (_get_name_via_module fs name extrapath g1) as [[r1 h1]|] eqn:H1; [|done].
    rewrite (get_name_via_module_paths _ _ _ _ _ _ Hpaths H1).
    pose proof (get_name_via_module_grown _ _ _ _ _ H1) as (_ & Hp1 & _).
    destruct (found r1); [injection Hloop as <- <-; by eexists|].
    destruct (_get_name_via_package fs name extrapath h1) as [[r2 h2]|] eqn:H2; [|done].
    pose proof (get_name_via_module_grown _ _ _ _ _ H2) as (_ & Hp2 & _).
    set (k1 := match r1 with Some m => cache_store name extrapath m g2 | None => g2 end).
    assert (_paths k1 = _paths h1) as Hk1.
    { subst k1. rewrite Hp1. by destruct r1. }
    unfold _get_name_via_package in *.
    rewrite (get_name_via_module_paths _ _ _ _ _ _ Hk1 H2).
    destruct (found r2); [injection Hloop as <- <-; by eexists|].
    eapply IH; [|done]. rewrite Hp2. by destruct r2.
Qed.

(** When no file is found for any name the loop goes through, the loop ends
    without a result and without a change. *)
Lemma lookup_loop_exhausted fuel name extrapath g :
  (∀ k, k ∈ shortenings fuel name → nothing_found fs k extrapath (_paths g)) →
  lookup_loop fs fuel name extrapath g = Ok (None, g).
Proof.
  revert name. induction fuel as [|fuel IH]; intros name Hnone.
  - simpl. by destruct (Py.truthy name).
  - destruct (Py.truthy name) eqn:Hname; [|by rewrite lookup_loop_falsy].
    rewrite lookup_loop_S by done.
    assert (Hs : shortenings (S fuel) name
                 = name :: shortenings fuel (Py.rpartition_head "." name)).
    { simpl. by rewrite Hname. }
    destruct (Hnone name) as [Hmod Hpkg]; [rewrite Hs; by left|].
    unfold _get_name_via_package, _get_name_via_module. rewrite Hmod. simpl. rewrite Hpkg.
    simpl. apply IH. intros k Hk. apply Hnone. rewrite Hs. by right.
Qed.

End resolver_facts.

Section resolver_claims.
Context (fs : filesystem) (host : interpreter).
Implicit Types (g : ModuleGraph) (pkg sub sym : string).

(** C3. A name that ends in [.*] and is not excluded is answered
    with the name without the suffix, at once: no lookup is made and the
    graph object, its cache included, stays as it was. *)
Theorem find_module_of_import_wildcard base imp_level file_path g :
  excluded host (base +:+ ".*") = false →
  _find_module_of_import fs host (base +:+ ".*") imp_level file_path g
    = Ok (Some base, g).
Proof.
  intros Hex. unfold _find_module_of_import. rewrite Hex, endswith_app.
  assert (Py.drop_last 2 (base +:+ ".*") = base) as -> by apply (drop_last_app base ".*").
  done.
Qed.

(** C4. A resolution that reaches the lookup phase leaves the module registry
    and the search-path list as they were, and no entry of the cache is lost.
    When the file of the reference itself is on the search path, the cache
    holds an entry for the key of the reference afterwards. When the
    reference is not in the cache and no file is found for any shortening of
    it, the original name is returned and the cache stays as it was. *)
Theorem find_module_of_import_frame imp_name imp_level file_path g r g' :
  excluded host imp_name = false →
  Py.endswith imp_name ".*" = false →
  _find_module_of_import fs host imp_name imp_level file_path g = Ok (r, g') →
  _modules g' = _modules g ∧ _paths g' = _paths g ∧
  (∀ key, is_Some (_module_cache g !! key) → is_Some (_module_cache g' !! key)) ∧
  (Py.truthy imp_name = true →
   is_Some (found_path fs (file_of imp_name) (extra_path imp_level file_path) (_paths g)) →
   is_Some (_module_cache g' !! (imp_name, extra_path imp_level file_path))) ∧
  (_module_cache g !! (imp_name, extra_path imp_level file_path) = None →
   (∀ k, k ∈ shortenings (String.length imp_name) imp_name →
         nothing_found fs k (extra_path imp_level file_path) (_paths g)) →
   r = Some imp_name ∧ g' = g).
Proof.
  intros Hex Hwild. unfold _find_module_of_import. rewrite Hex, Hwild.
  set (extrapath := extra_path imp_level file_path).
  destruct (_module_cache g !! (imp_name, extrapath)) as [cached|] eqn:Hcache.
  { intros [= <- <-]. split_and!; [done|done|done| |done].
    intros _ _. rewrite Hcache. by eexists. }
  destruct (lookup_loop fs _ imp_name extrapath g) as [[result g1]|] eqn:Hloop; [|done].
  simpl. intros Hres.
  assert (g1 = g') as -> by (destruct result; by injection Hres).
  destruct (lookup_loop_inv _ _ _ _ _ _ _ Hloop) as ((Hm & Hp & Hgrow) & _ & _).
  split_and!; [done|done|done| |].
  - intros Htruthy [full_path Hfound].
    destruct imp_name as [|a rest]; [done|]. simpl String.length in Hloop.
    rewrite lookup_loop_S in Hloop by done.
    destruct (_get_name_via_module fs (String a rest) extrapath g) as [[r1 h1]|] eqn:H1;
      [|done].
    assert (is_Some (_module_cache h1 !! (String a rest, extrapath))) as Hstored.
    { apply get_name_via_module_inv in H1 as [(_ & _ & Hnone)|(? & v & _ & _ & _ & ->)].
      - by rewrite Hfound in Hnone.
      - simpl. rewrite lookup_insert_eq. by eexists. }
    destruct (found r1).
    { injection Hloop as <- <-. done. }
    destruct (_get_name_via_package fs (String a rest) extrapath h1) as [[r2 h2]|] eqn:H2;
      [|done].
    pose proof (get_name_via_module_grown _ _ _ _ _ _ H2) as (_ & _ & Hgrow2).
    destruct (found r2).
    { injection Hloop as <- <-. by apply Hgrow2. }
    destruct (lookup_loop_inv _ _ _ _ _ _ _ Hloop) as ((_ & _ & Hgrow3) & _ & _).
    by apply Hgrow3, Hgrow2.
  - intros _ Hnone. rewrite (lookup_loop_exhausted fs _ _ _ _ Hnone) in Hloop.
    injection Hloop as <- <-. by injection Hres as <-.
Qed.








(** Resolving a reference a second time, in the graph the first resolution
    left, gives the same name, provided the first resolution did not leave
    an empty name under the key of the reference. *)
Lemma find_module_of_import_again imp_name imp_level file_path g r g' :
  _find_module_of_import fs host imp_name imp_level file_path g = Ok (r, g') →
  _module_cache g' !! (imp_name, extra_path imp_level file_path) ≠ Some "" →
  ∃ g'', _find_module_of_import fs host imp_name imp_level file_path g' = Ok (r, g'').
Proof.
  unfold _find_module_of_import.
  destruct (excluded host imp_name); [intros [= <- <-]; by eexists|].
  destruct (Py.endswith imp_name ".*"); [intros [= <- <-]; by eexists|].
  set (extrapath := extra_path imp_level file_path).
  destruct (_module_cache g !! (imp_name, extrapath)) as [cached|] eqn:Hcache.
  { intros [= <- <-] _. rewrite Hcache. by eexists. }
  destruct (lookup_loop fs _ imp_name extrapath g) as [[result g1]|] eqn:Hloop; [|done].
  simpl. intros Hres Hnonempty.
  assert (g1 = g') as -> by (destruct result; by injection Hres).
  destruct (lookup_loop_inv _ _ _ _ _ _ _ Hloop) as ((_ & Hp & _) & Hentries & Hfound).
  destruct (_module_cache g' !! (imp_name, extrapath)) as [c|] eqn:Hc.
  - destruct (Hentries _ _ Hc) as [Hold|[-> | ->]]; [congruence|done|].
    injection Hres as <-. by eexists.
  - destruct (lookup_loop_paths _ _ _ _ _ g' _ _ Hp Hloop) as [g'' ->].
    simpl. destruct result; injection Hres as <-; by eexists.
Qed.

End resolver_claims.

(** ** The scan *)

Section scan_facts.
Context (fs : filesystem) (host : interpreter).
Implicit Types (g : ModuleGraph).

Lemma find_module_of_import_grown imp_name imp_level file_path g r g' :
  _find_module_of_import fs host imp_name imp_level file_path g = Ok (r, g') →
  cache_grown g g'.
Proof.
  unfold _find_module_of_import.
  destruct (excluded host imp_name); [intros [= <- <-]; apply cache_grown_refl|].
  destruct (Py.endswith imp_name ".*"); [intros [= <- <-]; apply cache_grown_refl|].
  destruct (_module_cache g !! _); [intros [= <- <-]; apply cache_grown_refl|].
  destruct (lookup_loop fs _ _ _ g) as [[result g1]|] eqn:Hloop; [|done]. simpl.
  intros Hres. assert (g1 = g') as -> by (destruct result; by injection Hres).
  by destruct (lookup_loop_inv _ _ _ _ _ _ _ Hloop) as (? & _ & _).
Qed.

Lemma resolve_all_grown import_infos file_path g resolved g' :
  resolve_all fs host import_infos file_path g = Ok (resolved, g') → cache_grown g g'.
Proof.
  revert g resolved. induction import_infos as [|imp rest IH]; intros g resolved.
  - intros [= <- <-]. apply cache_grown_refl.
  - simpl.
    destruct (_find_module_of_import _ _ _ _ _ g) as [[r g1]|] eqn:H1; [|done]. simpl.
    destruct (resolve_all _ _ rest _ g1) as [[rs g2]|] eqn:H2; [|done]. simpl.
    intros [= <- <-]. apply (cache_grown_trans _ g1).
    + by apply find_module_of_import_grown in H1.
    + by apply IH in H2.
Qed.

(** What [parse_file] registers. *)
Lemma parse_file_inv file_name file_path g g' :
  parse_file fs host file_name file_path g = Ok ((), g') →
  ∃ name text root resolved g1,
    _find_module_name fs file_name file_path = Ok name ∧
    read fs (Py.path_join file_path file_name) = Some text ∧
    ast_parse host text = Some root ∧
    resolve_all fs host (list_imports root) file_path g = Ok (resolved, g1) ∧
    g' = {| _modules :=
              <[name := {| module_name := name;
                           file_name := file_name;
                           is_package := bool_decide (file_name = "__init__.py");
                           content := text;
                           imports := list_to_set (omap id resolved) |}]> (_modules g1);
            _module_cache := _module_cache g1;
            _paths := _paths g1 |}.
Proof.
  unfold parse_file, open_read, parse.
  destruct (_find_module_name _ _ _) as [name|] eqn:Hname; [|done]. simpl.
  destruct (read fs _) as [text|] eqn:Hread; [|done]. simpl.
  destruct (ast_parse host text) as [root|] eqn:Hparse; [|done]. simpl.
  destruct (resolve_all _ _ _ _ g) as [[resolved g1]|] eqn:Hres; [|done]. simpl.
  intros [= <-]. by exists name, text, root, resolved, g1.
Qed.

Lemma parse_file_named file_name file_path g g' :
  registry_named g →
  parse_file fs host file_name file_path g = Ok ((), g') → registry_named g'.
Proof.
  intros Hnamed (name & text & root & resolved & g1 & _ & _ & _ & Hres & ->)%parse_file_inv.
  apply resolve_all_grown in Hres as (Hm & _ & _).
  intros k m. simpl. destruct (decide (name = k)) as [<-|Hne].
  - rewrite lookup_insert_eq. by intros [= <-].
  - rewrite lookup_insert_ne, Hm by done. apply Hnamed.
Qed.

Lemma parse_files_named files root g g' :
  registry_named g →
  parse_files fs host files root g = Ok ((), g') → registry_named g'.
Proof.
  revert g. induction files as [|file rest IH]; intros g Hnamed.
  - by intros [= <-].
  - simpl. destruct (_ && _).
    + destruct (parse_file fs host file root g) as [[[] g1]|] eqn:Hfile; [|done]. simpl.
      apply IH. by apply (parse_file_named _ _ _ _ Hnamed Hfile).
    + by apply IH.
Qed.

Lemma parse_walk_named triples g g' :
  registry_named g →
  parse_walk fs host triples g = Ok ((), g') → registry_named g'.
Proof.
  revert g. induction triples as [|[[root dirs] files] rest IH]; intros g Hnamed.
  - by intros [= <-].
  - simpl. destruct (parse_files fs host files root _) as [[[] g2]|] eqn:Hfiles; [|done].
    simpl. apply IH. revert Hfiles. by apply parse_files_named.
Qed.

(** Every graph that a scan builds has its modules registered under their
    own names. *)
Lemma parse_paths_named paths g g' :
  registry_named g →
  parse_paths fs host paths g = Ok ((), g') → registry_named g'.
Proof.
  revert g. induction paths as [|path rest IH]; intros g Hnamed.
  - by intros [= <-].
  - simpl. destruct (negb _); [by intros [= <-]|].
    destruct (parse_walk fs host _ g) as [[[] g1]|] eqn:Hwalk; [|done]. simpl.
    apply IH. by apply (parse_walk_named _ _ _ Hnamed Hwalk).
Qed.

Lemma init_named : registry_named (init host).
Proof. intros k m. simpl. by rewrite lookup_empty. Qed.

(** [parse_paths] ends at the first root that does not exist: the roots
    after it are not scanned. *)
Lemma parse_paths_missing_root path rest g :
  path_exists fs path = false → parse_paths fs host (path :: rest) g = Ok ((), g).
Proof. intros H. simpl. by rewrite H. Qed.

Lemma found_path_more file extrapath paths root :
  is_Some (found_path fs file extrapath paths) →
  is_Some (found_path fs file extrapath (paths ++ [root])).
Proof.
  unfold found_path. destruct extrapath as [ep|].
  - destruct (Py.truthy ep && path_exists fs (Py.path_join ep file)); [done|].
    rewrite !fmap_is_Some. intros [path Hfind]. apply find_some in Hfind as [Hin Hp].
    destruct (List.find _ (paths ++ [root])) eqn:Hnone; [by eexists|].
    assert (In path (paths ++ [root])) as Hin' by (apply in_or_app; by left).
    pose proof (find_none _ _ Hnone path Hin') as Hf. simpl in Hf, Hp. congruence.
  - rewrite !fmap_is_Some. intros [path Hfind]. apply find_some in Hfind as [Hin Hp].
    destruct (List.find _ (paths ++ [root])) eqn:Hnone; [by eexists|].
    assert (In path (paths ++ [root])) as Hin' by (apply in_or_app; by left).
    pose proof (find_none _ _ Hnone path Hin') as Hf. simpl in Hf, Hp. congruence.
Qed.

Lemma get_name_via_module_sound imp_name extrapath g r g' :
  cache_sound fs g →
  _get_name_via_module fs imp_name extrapath g = Ok (r, g') → cache_sound fs g'.
Proof.
  intros Hsound [(_ & -> & _)|(full & v & Hfound & _ & _ & ->)]%get_name_via_module_inv;
    [done|].
  intros n e m. simpl. destruct (decide ((imp_name, extrapath) = (n, e))) as [[= <- <-]|Hne].
  - intros _. rewrite Hfound. by eexists.
  - rewrite lookup_insert_ne by done. apply Hsound.
Qed.

Lemma lookup_loop_sound fuel name extrapath g r g' :
  cache_sound fs g →
  lookup_loop fs fuel name extrapath g = Ok (r, g') → cache_sound fs g'.
Proof.
  revert name g. induction fuel as [|fuel IH]; intros name g Hsound Hloop.
  - simpl in Hloop. destruct (Py.truthy name); by injection Hloop as <- <-.
  - destruct (Py.truthy name) eqn:Hname.
    2:{ rewrite lookup_loop_falsy in Hloop by done. by injection Hloop as <- <-. }
    rewrite lookup_loop_S in Hloop by done.
    destruct (_get_name_via_module fs name extrapath g) as [[r1 g1]|] eqn:H1; [|done].
    apply (get_name_via_module_sound _ _ _ _ _ Hsound) in H1.
    destruct (found r1); [by injection Hloop as <- <-|].
    destruct (_get_name_via_package fs name extrapath g1) as [[r2 g2]|] eqn:H2; [|done].
    apply (get_name_via_module_sound _ _ _ _ _ H1) in H2.
    destruct (found r2); [by injection Hloop as <- <-|]. by apply (IH _ g2 H2 Hloop).
Qed.

Lemma find_module_of_import_sound imp_name imp_level file_path g r g' :
  cache_sound fs g →
  _find_module_of_import fs host imp_name imp_level file_path g = Ok (r, g') →
  cache_sound fs g'.
Proof.
  intros Hsound. unfold _find_module_of_import.
  destruct (excluded host imp_name); [by intros [= <- <-]|].
  destruct (Py.endswith imp_name ".*"); [by intros [= <- <-]|].
  destruct (_module_cache g !! _); [by intros [= <- <-]|].
  destruct (lookup_loop fs _ _ _ g) as [[result g1]|] eqn:Hloop; [|done]. simpl.
  intros Hres. assert (g1 = g') as -> by (destruct result; by injection Hres).
  by apply (lookup_loop_sound _ _ _ _ _ _ Hsound Hloop).
Qed.

Lemma resolve_all_sound import_infos file_path g resolved g' :
  cache_sound fs g →
  resolve_all fs host import_infos file_path g = Ok (resolved, g') → cache_sound fs g'.
Proof.
  revert g resolved. induction import_infos as [|imp rest IH]; intros g resolved Hsound.
  - by intros [= <- <-].
  - simpl.
    destruct (_find_module_of_import _ _ _ _ _ g) as [[r g1]|] eqn:H1; [|done]. simpl.
    destruct (resolve_all _ _ rest _ g1) as [[rs g2]|] eqn:H2; [|done]. simpl.
    intros [= <- <-]. apply (IH g1 rs); [|done].
    by apply (find_module_of_import_sound _ _ _ _ _ _ Hsound H1).
Qed.

Lemma parse_file_sound file_name file_path g g' :
  cache_sound fs g →
  parse_file fs host file_name file_path g = Ok ((), g') → cache_sound fs g'.
Proof.
  intros Hsound (name & text & root & resolved & g1 & _ & _ & _ & Hres & ->)%parse_file_inv.
  by apply (resolve_all_sound _ _ _ _ _ Hsound Hres).
Qed.

Lemma parse_files_sound files root g g' :
  cache_sound fs g →
  parse_files fs host files root g = Ok ((), g') → cache_sound fs g'.
Proof.
  revert g. induction files as [|file rest IH]; intros g Hsound.
  - by intros [= <-].
  - simpl. destruct (_ && _).
    + destruct (parse_file fs host file root g) as [[[] g1]|] eqn:Hfile; [|done]. simpl.
      apply IH. by apply (parse_file_sound _ _ _ _ Hsound Hfile).
    + by apply IH.
Qed.

Lemma parse_walk_sound triples g g' :
  cache_sound fs g →
  parse_walk fs host triples g = Ok ((), g') → cache_sound fs g'.
Proof.
  revert g. induction triples as [|[[root dirs] files] rest IH]; intros g Hsound.
  - by intros [= <-].
  - simpl. destruct (parse_files fs host files root _) as [[[] g2]|] eqn:Hfiles; [|done].
    simpl. apply IH. revert Hfiles. apply parse_files_sound.
    intros n e m Hc. simpl in *. apply found_path_more. by apply (Hsound n e m).
Qed.

(** In every graph that a scan builds, a reference is in the cache only when
    its file is on the search path. *)
Lemma parse_paths_sound paths g g' :
  cache_sound fs g →
  parse_paths fs host paths g = Ok ((), g') → cache_sound fs g'.
Proof.
  revert g. induction paths as [|path rest IH]; intros g Hsound.
  - by intros [= <-].
  - simpl. destruct (negb _); [by intros [= <-]|].
    destruct (parse_walk fs host _ g) as [[[] g1]|] eqn:Hwalk; [|done]. simpl.
    apply IH. by apply (parse_walk_sound _ _ _ Hsound Hwalk).
Qed.

Lemma init_sound : cache_sound fs (init host).
Proof. intros n e m. simpl. by rewrite lookup_empty. Qed.

(** C5. The dependency set that [parse_file] records for a file
    holds exactly the names its imports resolved to; a reference resolved to
    the file's own name is recorded like any other. *)
Theorem parse_file_imports file_name file_path g g' :
  parse_file fs host file_name file_path g = Ok ((), g') →
  ∃ name m text root resolved g1,
    _find_module_name fs file_name file_path = Ok name ∧
    read fs (Py.path_join file_path file_name) = Some text ∧
    ast_parse host text = Some root ∧
    resolve_all fs host (list_imports root) file_path g = Ok (resolved, g1) ∧
    _modules g' !! name = Some m ∧
    (∀ x, x ∈ imports m ↔ Some x ∈ resolved) ∧
    (name ∈ imports m ↔ Some name ∈ resolved).
Proof.
  intros (name & text & root & resolved & g1 & Hname & Hread & Hparse & Hres & ->)%parse_file_inv.
  eexists name, _, text, root, resolved, g1. split_and!; [done..| | |].
  - simpl. apply lookup_insert_eq.
  - intros x. simpl. rewrite elem_of_list_to_set, list_elem_of_omap. split.
    + intros ([y|] & Hy & [= ->]). done.
    + intros Hx. by exists (Some x).
  - simpl. rewrite elem_of_list_to_set, list_elem_of_omap. split.
    + intros ([y|] & Hy & [= ->]). done.
    + intros Hx. by exists (Some name).
Qed.

End scan_facts.

(** ** Determinism *)

Lemma generate_data_iter_irrel (iter1 iter2 : gset string → list string) g :
  (∀ X, iter1 X ≡ₚ elements X) → (∀ X, iter2 X ≡ₚ elements X) →
  generate_data_iter iter1 g = generate_data_iter iter2 g.
Proof.
  intros H1 H2. unfold generate_data_iter, _build_dependency_data_iter.
  by rewrite (toposort_flatten_iter_irrel iter1 iter2).
Qed.

(** C9. The pack does not depend on the order in which Python lists the
    elements of a set: [toposort_flatten] sorts every set it yields, so any
    two listing orders give the same records in the same order. And a
    reference resolved a second time from the same directory, in the graph
    that the first resolution left, gets the same name. *)
Theorem packing_deterministic fs host (iter1 iter2 : gset string → list string) g
    imp_name imp_level file_path h r h' :
  (∀ X, iter1 X ≡ₚ elements X) → (∀ X, iter2 X ≡ₚ elements X) →
  _find_module_of_import fs host imp_name imp_level file_path h = Ok (r, h') →
  _module_cache h' !! (imp_name, extra_path imp_level file_path) ≠ Some "" →
  generate_data_iter iter1 g = generate_data_iter iter2 g ∧
  ∃ h'', _find_module_of_import fs host imp_name imp_level file_path h' = Ok (r, h'').
Proof.
  intros H1 H2 Hres Hnonempty. split.
  - by apply generate_data_iter_irrel.
  - by apply (find_module_of_import_again fs host _ _ _ h).
Qed.

(** ** The model at work *)

Example split_abs : Py.split Py.sep "/r/proj/pkg" = [""; "r"; "proj"; "pkg"].
Proof. reflexivity. Qed.
Example split_empty : Py.split Py.sep "" = [""].
Proof. reflexivity. Qed.
Example join_abs : Py.join "/" [""; "r"; "proj"] = "/r/proj".
Proof. reflexivity. Qed.
Example join_root : Py.join "/" [""] = "".
Proof. reflexivity. Qed.
Example before_first_py : Py.before_first ".py" "pkg/sub.py" = "pkg/sub".
Proof. reflexivity. Qed.
Example rpartition_dotted : Py.rpartition_head "." "pkg.sub.Symbol" = "pkg.sub".
Proof. reflexivity. Qed.
Example rpartition_plain : Py.rpartition_head "." "pkg" = "".
Proof. reflexivity. Qed.
Example drop_last_star : Py.drop_last 2 "pkg.sub.*" = "pkg.sub".
Proof. reflexivity. Qed.
Example dirname_file : Py.dirname "/r/proj/pkg/sub.py" = "/r/proj/pkg".
Proof. reflexivity. Qed.
Example dirname_top : Py.dirname "/sub.py" = "/".
Proof. reflexivity. Qed.
Example dirname_plain : Py.dirname "sub.py" = "".
Proof. reflexivity. Qed.
Example path_join_plain : Py.path_join "/r/proj" "pkg/sub.py" = "/r/proj/pkg/sub.py".
Proof. reflexivity. Qed.
Example path_join_slash : Py.path_join "/r/proj/" "pkg" = "/r/proj/pkg".
Proof. reflexivity. Qed.
Example contains_pyc : Py.contains ".py" "notes.pyc" = true.
Proof. reflexivity. Qed.

Section examples.
Import Fixture.

Lemma scan_scanned_dangling :
  scan dangling_tree ["/r/proj"] = Ok ((), scanned dangling_tree ["/r/proj"]).
Proof. vm_compute. reflexivity. Qed.

(** C1. The file [/r/proj/a.py] imports [notinstalled], which no file on the
    search path provides; the resolver falls back to the name itself, the
    order that [toposort_flatten] returns lists it, and [generate_data]
    raises [KeyError] on its lookup in [_modules]. *)
Theorem generate_data_dangling_fails :
  scan dangling_tree ["/r/proj"] = Ok ((), scanned dangling_tree ["/r/proj"]) ∧
  (imports <$> _modules (scanned dangling_tree ["/r/proj"])) !! "proj.a"
    = Some {["notinstalled"]} ∧
  _modules (scanned dangling_tree ["/r/proj"]) !! "notinstalled" = None ∧
  _build_dependency_data (scanned dangling_tree ["/r/proj"])
    = Ok ["notinstalled"; "proj.a"] ∧
  generate_data (scanned dangling_tree ["/r/proj"]) = Raise (KeyError "notinstalled").
Proof. split_and!; vm_compute; reflexivity. Qed.

(** C2. With a root that does not exist ahead of [/r/proj], [parse_paths]
    returns at once and registers nothing, although [/r/proj] exists and a
    scan of it alone registers [proj.a]. *)
Theorem parse_paths_stops_at_missing_root :
  path_exists (TreeFs.fs dangling_tree) "/missing" = false ∧
  path_exists (TreeFs.fs dangling_tree) "/r/proj" = true ∧
  scan dangling_tree ["/missing"; "/r/proj"] = Ok ((), init host) ∧
  dom (_modules (scanned dangling_tree ["/r/proj"])) = {["proj.a"]}.
Proof. split_and!; vm_compute; reflexivity. Qed.

(** C3 does not hold as worded: in [flat_tree] the file [pkg/sub.py] has the
    canonical name [proj.pkg.sub], which is what the reference [pkg.sub]
    resolves to, while the wildcard reference [pkg.sub.*] is answered with
    [pkg.sub]. *)
Lemma wildcard_not_looked_up :
  ¬ (∀ fs host base imp_level file_path g r1 g1 r2 g2,
       excluded host (base +:+ ".*") = false →
       excluded host base = false →
       _find_module_of_import fs host (base +:+ ".*") imp_level file_path g = Ok (r1, g1) →
       _find_module_of_import fs host base imp_level file_path g = Ok (r2, g2) →
       r1 = r2).
Proof.
  intros Hclaim.
  specialize (Hclaim (TreeFs.fs flat_tree) host "pkg.sub" None "/r/proj" proj_graph
                (Some "pkg.sub") proj_graph
                (Some "proj.pkg.sub") (cache_store "pkg.sub" None "proj.pkg.sub" proj_graph)).
  discriminate Hclaim; vm_compute; reflexivity.
Qed.

Lemma find_module_of_import_wildcard_witness :
  _find_module_of_import (TreeFs.fs flat_tree) host ("pkg.sub" +:+ ".*") None "/r/proj"
    proj_graph = Ok (Some "pkg.sub", proj_graph).
Proof. apply find_module_of_import_wildcard. vm_compute. reflexivity. Defined.

(** C4 does not hold as worded: the lookup of [notinstalled] exhausts its
    shortenings, returns the name itself and leaves no entry in the cache. *)
Lemma fallback_not_cached :
  ¬ (∀ fs host imp_name imp_level file_path g r g',
       excluded host imp_name = false →
       Py.endswith imp_name ".*" = false →
       _find_module_of_import fs host imp_name imp_level file_path g = Ok (r, g') →
       is_Some (_module_cache g' !! (imp_name, extra_path imp_level file_path))).
Proof.
  intros Hclaim.
  specialize (Hclaim (TreeFs.fs dangling_tree) host "notinstalled" None "/r/proj" proj_graph
                (Some "notinstalled") proj_graph).
  destruct Hclaim as [cached Hcached]; [vm_compute; reflexivity..|].
  vm_compute in Hcached. discriminate Hcached.
Qed.

Lemma find_module_of_import_frame_witness :
  _modules proj_graph = _modules proj_graph ∧
  (Some "notinstalled" = Some "notinstalled" ∧ proj_graph = proj_graph).
Proof.
  destruct (find_module_of_import_frame (TreeFs.fs dangling_tree) host
              "notinstalled" None "/r/proj" proj_graph (Some "notinstalled") proj_graph)
    as (Hmodules & _ & _ & _ & Hexhausted).
  - vm_compute. reflexivity.
  - vm_compute. reflexivity.
  - vm_compute. reflexivity.
  - split; [exact Hmodules|]. apply Hexhausted.
    + vm_compute. reflexivity.
    + intros k Hk. vm_compute in Hk.
      apply list_elem_of_singleton in Hk. subst k. split; vm_compute; reflexivity.
Defined.

(** the other case of C4: the file of the reference itself is found, and the
    cache then holds the name under the key of the reference *)
Example direct_match_cached :
  _find_module_of_import (TreeFs.fs short_tree) host "pkg.sub" None "/r/proj" proj_graph
  = Ok (Some "pkg.sub", cache_store "pkg.sub" None "pkg.sub" proj_graph).
Proof. vm_compute. reflexivity. Qed.

(** C5 does not hold as worded: the marker file of [pkg] imports from the package
    itself, the reference [pkg.VERSION] shortens to [pkg], and [pkg] is
    recorded among its own dependencies. *)
Lemma self_edge_recorded :
  ¬ (∀ fs host roots g' k m,
       parse_paths fs host roots (init host) = Ok ((), g') →
       _modules g' !! k = Some m → k ∉ imports m).
Proof.
  intros Hclaim.
  apply (Hclaim (TreeFs.fs self_tree) host ["/r/proj"] (scanned self_tree ["/r/proj"]) "pkg"
           {| module_name := "pkg"; file_name := "__init__.py"; is_package := true;
              content := "from pkg import VERSION"; imports := {["pkg"]} |}).
  - vm_compute. reflexivity.
  - vm_compute. reflexivity.
  - simpl. by apply elem_of_singleton.
Qed.

Lemma parse_file_imports_witness :
  ∃ name m text root resolved g1,
    _find_module_name (TreeFs.fs self_tree) "__init__.py" "/r/proj/pkg" = Ok name ∧
    read (TreeFs.fs self_tree) (Py.path_join "/r/proj/pkg" "__init__.py") = Some text ∧
    ast_parse host text = Some root ∧
    resolve_all (TreeFs.fs self_tree) host (list_imports root) "/r/proj/pkg" pkg_graph
      = Ok (resolved, g1) ∧
    _modules self_graph !! name = Some m ∧
    (∀ x, x ∈ imports m ↔ Some x ∈ resolved) ∧
    (name ∈ imports m ↔ Some name ∈ resolved).
Proof.
  apply (parse_file_imports (TreeFs.fs self_tree) host "__init__.py" "/r/proj/pkg"
           pkg_graph self_graph).
  vm_compute. reflexivity.
Defined.

Lemma scan_scanned_self :
  scan self_tree ["/r/proj"] = Ok ((), scanned self_tree ["/r/proj"]).
Proof. vm_compute. reflexivity. Qed.

Lemma scan_scanned_chain :
  scan chain_tree ["/r/proj"] = Ok ((), scanned chain_tree ["/r/proj"]).
Proof. vm_compute. reflexivity. Qed.

Lemma not_before_singleton x : ¬ before [x] x x.
Proof.
  intros (i & j & Hij & Hi & Hj). apply lookup_lt_Some in Hj. simpl in Hj. lia.
Qed.

(** C6 does not hold as worded: [pkg] depends on itself, [toposort] discards the
    self-dependency, the pack comes out, and the one record of [pkg] does not
    stand before itself. *)
Lemma self_edge_not_ordered :
  ¬ (∀ g out a b ma,
       registry_named g →
       generate_data g = Ok out →
       _modules g !! a = Some ma → b ∈ imports ma → is_Some (_modules g !! b) →
       before (rec_name <$> out) b a).
Proof.
  intros Hclaim.
  apply (not_before_singleton "pkg").
  apply (Hclaim (scanned self_tree ["/r/proj"])
           [{| rec_name := "pkg"; rec_is_package := true;
               rec_code := "from pkg import VERSION" |}]
           "pkg" "pkg"
           {| module_name := "pkg"; file_name := "__init__.py"; is_package := true;
              content := "from pkg import VERSION"; imports := {["pkg"]} |}).
  - apply (parse_paths_named (TreeFs.fs self_tree) host ["/r/proj"] (init host));
      [apply init_named|apply scan_scanned_self].
  - vm_compute. reflexivity.
  - vm_compute. reflexivity.
  - simpl. by apply elem_of_singleton.
  - eexists. vm_compute. reflexivity.
Qed.

Lemma generate_data_dependencies_first_witness :
  NoDup ["pkg"; "pkg.sub2"; "pkg.sub"] ∧ before ["pkg"; "pkg.sub2"; "pkg.sub"] "pkg.sub2" "pkg.sub".
Proof.
  apply (generate_data_dependencies_first (scanned chain_tree ["/r/proj"])
           [{| rec_name := "pkg"; rec_is_package := true; rec_code := "" |};
            {| rec_name := "pkg.sub2"; rec_is_package := false; rec_code := "" |};
            {| rec_name := "pkg.sub"; rec_is_package := false;
               rec_code := "from . import sub2" |}]
           "pkg.sub" "pkg.sub2"
           {| module_name := "pkg.sub"; file_name := "sub.py"; is_package := false;
              content := "from . import sub2"; imports := {["pkg.sub2"]} |}).
  - apply (parse_paths_named (TreeFs.fs chain_tree) host ["/r/proj"] (init host));
      [apply init_named|apply scan_scanned_chain].
  - vm_compute. reflexivity.
  - vm_compute. reflexivity.
  - simpl. apply elem_of_singleton. reflexivity.
  - discriminate.
Defined.



(** What [setup_tree] and [stray_tree] are named. In [stray_tree] no entry of
    [/r/proj] ends in [.py], but the name [.pytest_cache] contains [.py]: the
    climb goes on above [pkg]. *)
Example setup_tree_names :
  _find_module_name (TreeFs.fs MoreFixtures.setup_tree) "mod.py" "/r/proj/pkg/sub"
    = Ok "sub.mod" ∧
  _find_module_name (TreeFs.fs MoreFixtures.setup_tree) "__init__.py" "/r/proj/pkg/sub"
    = Ok "sub".
Proof. split; vm_compute; reflexivity. Qed.

Example stray_tree_names :
  listdir (TreeFs.fs MoreFixtures.stray_tree) "/r/proj" = Some [".pytest_cache"; "pkg"] ∧
  forallb (λ file, negb (Py.endswith file ".py")) [".pytest_cache"; "pkg"] = true ∧
  contain_python [".pytest_cache"; "pkg"] = true ∧
  _find_module_name (TreeFs.fs MoreFixtures.stray_tree) "mod.py" "/r/proj/pkg/sub"
    = Ok "proj.pkg.sub.mod" ∧
  _find_module_name (TreeFs.fs MoreFixtures.stray_tree) "__init__.py" "/r/proj/pkg/sub"
    = Ok "proj.pkg.sub".
Proof. repeat split; vm_compute; reflexivity. Qed.



Lemma backwards_perm X : backwards X ≡ₚ elements X.
Proof. apply reverse_Permutation. Qed.

Lemma packing_deterministic_witness :
  generate_data_iter backwards (scanned chain_tree ["/r/proj"])
    = generate_data_iter elements (scanned chain_tree ["/r/proj"]) ∧
  ∃ h'', _find_module_of_import (TreeFs.fs short_tree) host "pkg.sub.Symbol" None "/r/proj"
           (cache_store "pkg.sub" None "pkg.sub" proj_graph) = Ok (Some "pkg.sub", h'').
Proof.
  apply (packing_deterministic (TreeFs.fs short_tree) host backwards elements
           (scanned chain_tree ["/r/proj"]) "pkg.sub.Symbol" None "/r/proj" proj_graph).
  - apply backwards_perm.
  - reflexivity.
  - vm_compute. reflexivity.
  - vm_compute. discriminate.
Defined.

(** the sets of the toposort come out sorted whatever the listing order *)
Example pack_order_backwards :
  rec_name <$> match generate_data_iter backwards (scanned chain_tree ["/r/proj"]) with
               | Ok out => out
               | Raise _ => []
               end = ["pkg"; "pkg.sub2"; "pkg.sub"].
Proof. vm_compute. reflexivity. Qed.

Lemma has_absolute_import_of_module_witness :
  ∃ b, has_absolute_import_of_module host "import pkg.sub.mod" "pkg" = Ok b ∧
       (b = true ↔ ∃ n, n ∈ nodes (Node [Import [name_of "pkg.sub.mod"]]) ∧
                        imports_module "pkg" n) ∧
       (∀ m names level, level ≠ 0 → ¬ imports_module "pkg" (ImportFrom m names level)) ∧
       (∀ c rest, c ≠ "."%char → ¬ is_or_under "pkg" ("pkg" +:+ String c rest)).
Proof.
  apply has_absolute_import_of_module_spec.
  - reflexivity.
  - intros names Hin. vm_compute in Hin.
    apply elem_of_cons in Hin as [Hin|Hin]; [discriminate Hin|].
    apply list_elem_of_singleton in Hin. discriminate Hin.
Defined.

Example has_absolute_import_examples :
  has_absolute_import_of_module host "import pkg.sub.mod" "pkg" = Ok true ∧
  has_absolute_import_of_module host "import pkg.sub.mod" "pk" = Ok false ∧
  has_absolute_import_of_module host "from . import sub2" "sub2" = Ok false ∧
  has_absolute_import_of_module host "from pkg import VERSION" "pkg" = Ok true.
Proof. split_and!; vm_compute; reflexivity. Qed.

End examples.

(** * Further facts *)

(** ** The import-style checks and the import finder *)

Lemma elem_of_nodes_Node n children :
  n ∈ nodes (Node children) ↔ n = Node children ∨ ∃ c, c ∈ children ∧ n ∈ nodes c.
Proof.
  simpl. rewrite elem_of_cons, list_elem_of_In, in_flat_map.
  by setoid_rewrite list_elem_of_In.
Qed.

Lemma visit_rel_Node children flag :
  visit_rel (Node children) flag = visit_rel_list children flag.
Proof. revert flag. induction children as [|c cs IH]; intros flag; [done|]. apply IH. Qed.

Lemma visit_rel_spec t : ∀ flag,
  visit_rel t flag = true ↔ flag = true ∨ ∃ n, n ∈ nodes t ∧ is_relative n.
Proof.
  induction t as [names|m names level|children IH] using ast_nested_ind; intros flag.
  - simpl. split; [by left|]. intros [?|(n & Hn & Hrel)]; [done|].
    apply list_elem_of_singleton in Hn as ->. done.
  - simpl. case_bool_decide as Hlevel.
    + split; [|done]. intros _. right. exists (ImportFrom m names level).
      split; [by left|done].
    + split; [by left|]. intros [?|(n & Hn & Hrel)]; [done|].
      apply list_elem_of_singleton in Hn as ->. done.
  - rewrite visit_rel_Node.
    assert (∀ flag, visit_rel_list children flag = true ↔
              flag = true ∨ ∃ c n, c ∈ children ∧ n ∈ nodes c ∧ is_relative n) as Hlist.
    { induction children as [|c cs IHcs]; intros flag'.
      - simpl. split; [by left|]. intros [?|(c & n & Hc & _)]; [done|].
        by apply elem_of_nil in Hc.
      - apply Forall_cons in IH as [IHc IHrest]. simpl.
        rewrite (IHcs IHrest), IHc. split.
        + intros [[?|(n & Hn & Hrel)]|(c' & n & Hc' & Hn & Hrel)].
          * by left.
          * right. exists c, n. split; [by left|done].
          * right. exists c', n. split; [by right|done].
        + intros [?|(c' & n & Hc' & Hn & Hrel)]; [by left; left|].
          apply elem_of_cons in Hc' as [->|Hc'].
          * left. right. by exists n.
          * right. by exists c', n. }
    rewrite Hlist. split.
    + intros [?|(c & n & Hc & Hn & Hrel)]; [by left|right].
      exists n. split; [|done]. apply elem_of_nodes_Node. right. by exists c.
    + intros [?|(n & Hn & Hrel)]; [by left|right].
      apply elem_of_nodes_Node in Hn as [->|(c & Hc & Hn)]; [done|]. by exists c, n.
Qed.

(** X1. On a text that parses, [has_relative_import] returns, whatever the
    tree, and it returns [True] exactly when some node of the tree is a
    from-import of a nonzero level; on a text that does not parse it
    raises. *)
Theorem has_relative_import_spec host source :
  match ast_parse host source with
  | Some root =>
      ∃ b, has_relative_import host source = Ok b ∧
           (b = true ↔ ∃ n, n ∈ nodes root ∧ is_relative n)
  | None => has_relative_import host source = Raise (SyntaxError source)
  end.
Proof.
  unfold has_relative_import, parse. destruct (ast_parse host source) as [root|]; [|done].
  simpl. eexists. split; [done|]. rewrite visit_rel_spec. split.
  - by intros [?|?].
  - by right.
Qed.

Lemma is_or_under_parent module sub name :
  is_or_under (module +:+ "." +:+ sub) name → is_or_under module name.
Proof.
  intros [->|[rest ->]]; right.
  - by exists sub.
  - exists (sub +:+ "." +:+ rest). by rewrite !append_assoc.
Qed.

Lemma imports_module_parent module sub n :
  imports_module (module +:+ "." +:+ sub) n → imports_module module n.
Proof.
  destruct n as [names|[m|] names [|level]|children]; simpl; try done.
  - intros (a & Ha & Hunder). exists a. split; [done|]. by apply (is_or_under_parent _ sub).
  - apply is_or_under_parent.
Qed.

(** X2. A text that has an absolute import of a dotted module [m.sub] has an
    absolute import of [m] as well. *)
Theorem has_absolute_import_of_submodule host source module sub root :
  ast_parse host source = Some root →
  parsed_shape root →
  has_absolute_import_of_module host source (module +:+ "." +:+ sub) = Ok true →
  has_absolute_import_of_module host source module = Ok true.
Proof.
  intros Hparse Hshape. unfold has_absolute_import_of_module, parse. rewrite Hparse. simpl.
  destruct (visit_abs_spec (module +:+ "." +:+ sub) root false Hshape) as (b1 & -> & Hb1).
  destruct (visit_abs_spec module root false Hshape) as (b2 & -> & Hb2).
  intros [= ->]. f_equal. apply Hb2. right.
  destruct (proj1 Hb1 eq_refl) as [?|(n & Hn & Himp)]; [done|].
  exists n. split; [done|]. by apply (imports_module_parent _ sub).
Qed.

Lemma list_imports_Import names :
  list_imports (Import names) = (λ a, ImportInfo.make (alias_name a) None) <$> names.
Proof. reflexivity. Qed.

Lemma list_imports_ImportFrom module names level :
  list_imports (ImportFrom module names level)
  = (λ a, ImportInfo.make (full_name module a) (Some level)) <$> names.
Proof. reflexivity. Qed.

(** The descriptors that [ImportFinder] records are those of the aliases of
    the import statements of the tree, nested statements included. *)
Lemma list_imports_spec t imp :
  imp ∈ list_imports t ↔ ∃ n, n ∈ nodes t ∧ describes n imp.
Proof.
  induction t as [names|m names level|children IH] using ast_nested_ind.
  - rewrite list_imports_Import, list_elem_of_fmap. split.
    + intros (a & -> & Ha). exists (Import names). split; [by left|]. by exists a.
    + intros (n & Hn & Hdesc). apply list_elem_of_singleton in Hn as ->.
      destruct Hdesc as (a & Ha & ->). by exists a.
  - rewrite list_imports_ImportFrom, list_elem_of_fmap. split.
    + intros (a & -> & Ha). exists (ImportFrom m names level). split; [by left|].
      by exists a.
    + intros (n & Hn & Hdesc). apply list_elem_of_singleton in Hn as ->.
      destruct Hdesc as (a & Ha & ->). by exists a.
  - simpl list_imports. rewrite list_elem_of_In, in_flat_map. split.
    + intros (c & Hc & Himp). apply list_elem_of_In in Hc, Himp.
      rewrite Forall_forall in IH. apply (IH c Hc) in Himp as (n & Hn & Hdesc).
      exists n. split; [|done]. apply elem_of_nodes_Node. right. by exists c.
    + intros (n & Hn & Hdesc).
      apply elem_of_nodes_Node in Hn as [->|(c & Hc & Hn)]; [done|].
      exists c. split; [by apply list_elem_of_In|]. apply list_elem_of_In.
      rewrite Forall_forall in IH. apply (IH c Hc). by exists n.
Qed.

Lemma flat_map_nodes {B} (f g : ast → list B) children :
  Forall (λ c, f c = flat_map g (nodes c)) children →
  flat_map f children = flat_map g (flat_map nodes children).
Proof.
  induction 1 as [|c rest Hc _ IH]; [done|].
  cbn [flat_map]. by rewrite flat_map_app, Hc, IH.
Qed.

(** X3. The list that [ImportFinder] builds is the concatenation, over the
    nodes of the tree in the order of the visit (a node before its children,
    the children from first to last, nested statements included), of the
    descriptors of each node: one descriptor for each alias of an import
    statement, in the order of the aliases, and nothing for any other node.
    A plain import gives the alias name with no level, a from-import gives
    the module-qualified name (the bare alias name when the statement has no
    module) with the statement's level. *)
Theorem list_imports_preorder t :
  list_imports t = flat_map descriptors (nodes t).
Proof.
  induction t as [names|m names level|children IH] using ast_nested_ind.
  - rewrite list_imports_Import. cbn [nodes flat_map descriptors]. by rewrite app_nil_r.
  - rewrite list_imports_ImportFrom. cbn [nodes flat_map descriptors]. by rewrite app_nil_r.
  - cbn [list_imports nodes flat_map descriptors]. rewrite app_nil_l.
    by apply flat_map_nodes.
Qed.

(** ** Name derivation at any depth *)

Section name_depth.
Context (fs : filesystem).
Implicit Types (pre ds : list string) (d file base : string).

Lemma join_cons2 sep h h' l :
  Py.join sep (h :: h' :: l) = h +:+ sep +:+ Py.join sep (h' :: l).
Proof. reflexivity. Qed.

(** splitting undoes joining, for segments without a separator *)
Lemma split_join l :
  l ≠ [] → Forall (λ d, Py.has_char Py.sep d = false) l →
  Py.split Py.sep (Py.join Py.sep_s l) = l.
Proof.
  induction l as [|h l IH]; [done|]. intros _ Hall.
  apply Forall_cons in Hall as [Hh Hl]. destruct l as [|h' l].
  - by apply split_no_sep.
  - rewrite join_cons2. change (Py.sep_s +:+ Py.join Py.sep_s (h' :: l))
      with (String Py.sep (Py.join Py.sep_s (h' :: l))).
    by rewrite split_app, IH, split_no_sep.
Qed.

Lemma join_dots_snoc l d : l ≠ [] → Py.join "." (l ++ [d]) = Py.join "." l +:+ "." +:+ d.
Proof. apply join_snoc. Qed.

(** The climb takes the directories [ds] when the listing of every
    directory between them holds a source file and the listing of the
    directory above the first holds none. *)
Lemma climb_chain pre ds acc entries :
  ds ≠ [] →
  listdir fs (Py.join Py.sep_s pre) = Some entries → contain_python entries = false →
  (∀ i, (0 < i < length ds)%nat →
        ∃ e, listdir fs (Py.join Py.sep_s (pre ++ take i ds)) = Some e ∧
             contain_python e = true) →
  climb fs (reverse (pre ++ ds)) acc = Ok (acc ++ reverse ds)%list.
Proof.
  revert acc. induction ds as [|d ds IH] using rev_ind; [done|].
  intros acc _ Hls Hpy Hmid.
  rewrite app_assoc, !reverse_snoc. simpl. rewrite reverse_involutive.
  destruct (decide (ds = [])) as [->|Hne].
  - rewrite app_nil_r, Hls, Hpy. done.
  - destruct (Hmid (length ds)) as (e & He & Hepy).
    { rewrite length_app. simpl. destruct ds; [done|]. simpl. lia. }
    rewrite take_app_length in He. rewrite He, Hepy.
    rewrite IH; [by rewrite <-app_assoc|done|done|done|].
    intros i Hi. destruct (Hmid i) as (e' & He' & Hpy').
    { rewrite length_app. simpl. lia. }
    exists e'. split; [|done]. by rewrite take_app_le in He' by lia.
Qed.

Lemma find_module_name_chain pre ds file entries :
  ds ≠ [] → Forall (λ d, Py.has_char Py.sep d = false) (pre ++ ds) →
  listdir fs (Py.join Py.sep_s pre) = Some entries → contain_python entries = false →
  (∀ i, (0 < i < length ds)%nat →
        ∃ e, listdir fs (Py.join Py.sep_s (pre ++ take i ds)) = Some e ∧
             contain_python e = true) →
  _find_module_name fs file (Py.join Py.sep_s (pre ++ ds))
  = if negb (Py.contains "__init__.py" file)
    then Ok (Py.join "." ds +:+ "." +:+
             (if Py.has_char Py.sep (Py.before_first ".py" file)
              then Py.last_segment (Py.split Py.sep (Py.before_first ".py" file))
              else Py.before_first ".py" file))
    else Ok (Py.join "." ds).
Proof.
  intros Hne Hsep Hls Hpy Hmid. unfold _find_module_name.
  rewrite split_join; [|by destruct pre, ds|done].
  rewrite (climb_chain pre ds [] entries) by done. simpl.
  by rewrite reverse_involutive.
Qed.


(** X6. A module file [sub.py] and the marker file of a package [sub] beside
    it get the same canonical name. *)
Theorem find_module_name_collision pre ds sub entries :
  ds ≠ [] → Forall (λ d, Py.has_char Py.sep d = false) (pre ++ ds ++ [sub]) →
  listdir fs (Py.join Py.sep_s pre) = Some entries → contain_python entries = false →
  (∀ i, (0 < i < length (ds ++ [sub]))%nat →
        ∃ e, listdir fs (Py.join Py.sep_s (pre ++ take i (ds ++ [sub]))) = Some e ∧
             contain_python e = true) →
  Py.has_char "." sub = false →
  Py.contains "__init__.py" (sub +:+ ".py") = false →
  _find_module_name fs (sub +:+ ".py") (Py.join Py.sep_s (pre ++ ds))
  = _find_module_name fs "__init__.py" (Py.join Py.sep_s (pre ++ ds ++ [sub])).
Proof.
  intros Hne Hsep Hls Hpy Hmid Hdot Hinit.
  pose proof Hsep as Hsep'. rewrite app_assoc in Hsep'.
  apply Forall_app in Hsep' as [Hpd Hsub]. apply Forall_cons in Hsub as [Hssub _].
  rewrite (find_module_name_chain pre (ds ++ [sub]) _ entries); [|by destruct ds|done..].
  rewrite (find_module_name_chain pre ds _ entries); [|done|done|done|done|].
  - rewrite Hinit, before_first_no_dot, Hssub by done. simpl.
    by rewrite join_dots_snoc.
  - intros i Hi. destruct (Hmid i) as (e & He & Hepy).
    { rewrite length_app. simpl. lia. }
    exists e. split; [|done]. by rewrite take_app_le in He by lia.
Qed.

(** X5. The name of a file in a directory given by one segment, relative or
    directly under the root, cannot be derived when the empty path cannot be
    listed: the climb asks for the listing of the empty path and the error
    of [os.listdir] comes out. *)
Theorem find_module_name_top file d :
  Py.has_char Py.sep d = false →
  listdir fs "" = None →
  _find_module_name fs file d = Raise (FileNotFoundError "") ∧
  _find_module_name fs file ("/" +:+ d) = Raise (FileNotFoundError "").
Proof.
  intros Hd Hls. unfold _find_module_name. split.
  - rewrite (split_no_sep _ d) by done. simpl. by rewrite Hls.
  - change ("/" +:+ d) with ("" +:+ String Py.sep d).
    rewrite split_app, (split_no_sep _ d) by done. simpl. by rewrite Hls.
Qed.

End name_depth.

(** ** More on the resolver *)

Section resolver_more.
Context (fs : filesystem) (host : interpreter).
Implicit Types (g : ModuleGraph) (imp_name : string) (extrapath : option string).

Lemma find_app_Some {A} (f : A → bool) (l1 l2 : list A) x :
  List.find f l1 = Some x → List.find f (l1 ++ l2) = Some x.
Proof.
  induction l1 as [|a l1 IH]; [done|]. simpl. destruct (f a); [done|apply IH].
Qed.

Lemma found_path_app_Some file extrapath paths more full_path :
  found_path fs file extrapath paths = Some full_path →
  found_path fs file extrapath (paths ++ more) = Some full_path.
Proof.
  unfold found_path.
  destruct (match extrapath with Some _ => _ | None => _ end); [done|].
  destruct (List.find _ paths) as [path|] eqn:Hfind; [|done].
  by rewrite (find_app_Some _ _ _ _ Hfind).
Qed.

Lemma derived_from_more paths more extrapath imp_name module_name :
  derived_from fs paths extrapath imp_name module_name →
  derived_from fs (paths ++ more) extrapath imp_name module_name.
Proof.
  intros (full_path & Hfound & Hname). exists full_path.
  split; [by apply found_path_app_Some|done].
Qed.

Lemma get_name_via_module_exact imp_name extrapath g r g' :
  cache_exact fs g →
  _get_name_via_module fs imp_name extrapath g = Ok (r, g') → cache_exact fs g'.
Proof.
  intros Hexact [(_ & -> & _)|(full & v & Hfound & Hname & _ & ->)]%get_name_via_module_inv;
    [done|].
  intros n e m. simpl. destruct (decide ((imp_name, extrapath) = (n, e))) as [[= <- <-]|Hne].
  - rewrite lookup_insert_eq. intros [= <-]. by exists full.
  - rewrite lookup_insert_ne by done. apply Hexact.
Qed.

(** What the loop returns is the name derived for one of the names it went
    through, or for the package marker of one of them. *)
Lemma lookup_loop_exact fuel name extrapath g r g' :
  cache_exact fs g →
  lookup_loop fs fuel name extrapath g = Ok (r, g') →
  cache_exact fs g' ∧
  ∀ v, r = Some v →
    ∃ k, k ∈ shortenings fuel name ∧
         (derived_from fs (_paths g) extrapath k v ∨
          derived_from fs (_paths g) extrapath (k +:+ ".__init__") v).
Proof.
  revert name g. induction fuel as [|fuel IH]; intros name g Hexact Hloop.
  - simpl in Hloop. destruct (Py.truthy name); injection Hloop as <- <-; by split.
  - destruct (Py.truthy name) eqn:Hname.
    2:{ rewrite lookup_loop_falsy in Hloop by done. injection Hloop as <- <-. by split. }
    assert (Hs : shortenings (S fuel) name
                 = name :: shortenings fuel (Py.rpartition_head "." name)).
    { simpl. by rewrite Hname. }
    rewrite lookup_loop_S in Hloop by done.
    destruct (_get_name_via_module fs name extrapath g) as [[r1 g1]|] eqn:H1; [|done].
    pose proof (get_name_via_module_exact _ _ _ _ _ Hexact H1) as Hexact1.
    pose proof (get_name_via_module_grown _ _ _ _ _ _ H1) as (_ & Hp1 & _).
    destruct (found r1) eqn:Hf1.
    { injection Hloop as <- <-. split; [done|]. intros v ->.
      apply get_name_via_module_inv in H1 as [(? & _)|(full & v' & ? & ? & [= ->] & _)];
        [done|].
      exists name. split; [rewrite Hs; by left|]. left. by exists full. }
    destruct (_get_name_via_package fs name extrapath g1) as [[r2 g2]|] eqn:H2; [|done].
    pose proof (get_name_via_module_exact _ _ _ _ _ Hexact1 H2) as Hexact2.
    pose proof (get_name_via_module_grown _ _ _ _ _ _ H2) as (_ & Hp2 & _).
    destruct (found r2) eqn:Hf2.
    { injection Hloop as <- <-. split; [done|]. intros v ->.
      apply get_name_via_module_inv in H2 as [(? & _)|(full & v' & ? & ? & [= ->] & _)];
        [done|].
      exists name. split; [rewrite Hs; by left|]. right. exists full. by rewrite <-Hp1. }
    destruct (IH _ _ Hexact2 Hloop) as (Hexact3 & Hres). split; [done|].
    intros v Hv. destruct (Hres v Hv) as (k & Hk & Hder). exists k.
    split; [rewrite Hs; by right|]. by rewrite <-Hp1, <-Hp2.
Qed.

(** X8. Where the name returned by the resolver comes from: in a graph with
    an exact cache, a reference that is neither excluded nor a wildcard is
    answered with the reference itself, or with the canonical name derived
    for the file found for the reference, for one of its shortenings, or for
    the package marker of one of them; and the cache stays exact. *)
Theorem find_module_of_import_provenance imp_name imp_level file_path g r g' :
  excluded host imp_name = false →
  Py.endswith imp_name ".*" = false →
  cache_exact fs g →
  _find_module_of_import fs host imp_name imp_level file_path g = Ok (r, g') →
  cache_exact fs g' ∧
  ∃ v, r = Some v ∧
    (v = imp_name ∨
     ∃ k, (k = imp_name ∨ k ∈ shortenings (String.length imp_name) imp_name) ∧
          (derived_from fs (_paths g) (extra_path imp_level file_path) k v ∨
           derived_from fs (_paths g) (extra_path imp_level file_path)
             (k +:+ ".__init__") v)).
Proof.
  intros Hex Hwild Hexact. unfold _find_module_of_import. rewrite Hex, Hwild.
  set (extrapath := extra_path imp_level file_path).
  destruct (_module_cache g !! (imp_name, extrapath)) as [cached|] eqn:Hcache.
  { intros [= <- <-]. split; [done|]. exists cached. split; [done|]. right.
    exists imp_name. split; [by left|]. left. by apply Hexact. }
  destruct (lookup_loop fs _ imp_name extrapath g) as [[result g1]|] eqn:Hloop; [|done].
  simpl. intros Hres.
  destruct (lookup_loop_exact _ _ _ _ _ _ Hexact Hloop) as (Hexact1 & Hder).
  destruct result as [v|]; injection Hres as <- <-; (split; [done|]).
  - exists v. split; [done|]. right. destruct (Hder v eq_refl) as (k & Hk & Hkv).
    exists k. split; [by right|done].
  - exists imp_name. split; [done|]. by left.
Qed.

(** X9. A direct match: when the reference is not in the cache, its own file
    is found and the name derived for it is not empty, the resolver returns
    that name, whether or not a package of the same name exists, and stores
    it under the key of the reference; a second resolution is then answered
    from the cache and changes nothing. *)
Theorem find_module_of_import_direct imp_name imp_level file_path g full_path module_name :
  excluded host imp_name = false →
  Py.endswith imp_name ".*" = false →
  Py.truthy imp_name = true →
  _module_cache g !! (imp_name, extra_path imp_level file_path) = None →
  found_path fs (file_of imp_name) (extra_path imp_level file_path) (_paths g)
    = Some full_path →
  _find_module_name fs (file_of imp_name) (Py.dirname full_path) = Ok module_name →
  Py.truthy module_name = true →
  let g' := cache_store imp_name (extra_path imp_level file_path) module_name g in
  _find_module_of_import fs host imp_name imp_level file_path g = Ok (Some module_name, g') ∧
  _find_module_of_import fs host imp_name imp_level file_path g' = Ok (Some module_name, g').
Proof.
  intros Hex Hwild Htruthy Hcache Hfound Hname Hnonempty g'.
  unfold _find_module_of_import. rewrite Hex, Hwild. split.
  - rewrite Hcache. destruct imp_name as [|a rest]; [done|]. simpl String.length.
    rewrite lookup_loop_S by done.
    rewrite (get_name_via_module_some fs _ _ _ full_path module_name) by done.
    unfold found. by rewrite Hnonempty.
  - subst g'. simpl. by rewrite lookup_insert_eq.
Qed.

(** X10. The extra search directory of a relative import: a level of
    [n + 1], for [n] at least 1, takes the last [n] segments off the
    directory of the importing file; levels 0 and 1, and a plain import,
    give no extra directory. *)
Theorem extra_path_trims pre ds :
  ds ≠ [] → Forall (λ d, Py.has_char Py.sep d = false) (pre ++ ds) →
  extra_path (Some (S (length ds))) (Py.join Py.sep_s (pre ++ ds))
    = Some (Py.join Py.sep_s pre) ∧
  extra_path (Some 1) (Py.join Py.sep_s (pre ++ ds)) = None ∧
  extra_path (Some 0) (Py.join Py.sep_s (pre ++ ds)) = None ∧
  extra_path None (Py.join Py.sep_s (pre ++ ds)) = None.
Proof.
  intros Hne Hsep. split; [|done]. unfold extra_path.
  rewrite bool_decide_true by (destruct ds; [done|simpl; lia]).
  rewrite split_join; [|by destruct pre, ds|done].
  unfold Py.list_drop_last. rewrite length_app.
  replace (length pre + length ds - (S (length ds) - 1))%nat with (length pre) by lia.
  by rewrite take_app_length.
Qed.

(** X11. A relative import whose level is greater than the number of pieces
    that the importing file's directory splits into at the separator gets the
    empty extra directory, which the lookup disregards: the file is searched
    on the search path alone. *)
Theorem extra_path_above_top level file_path file paths :
  (1 < level)%nat →
  (length (Py.split Py.sep file_path) ≤ level - 1)%nat →
  extra_path (Some level) file_path = Some "" ∧
  found_path fs file (extra_path (Some level) file_path) paths = found_path fs file None paths.
Proof.
  intros Hlevel Hlen.
  assert (extra_path (Some level) file_path = Some "") as ->.
  { unfold extra_path. rewrite bool_decide_true by done. unfold Py.list_drop_last.
    replace (length (Py.split Py.sep file_path) - (level - 1))%nat with 0%nat by lia.
    by rewrite take_0. }
  done.
Qed.

Lemma find_module_of_import_None imp_name imp_level file_path g r g' :
  _find_module_of_import fs host imp_name imp_level file_path g = Ok (r, g') →
  (r = None ↔ excluded host imp_name = true).
Proof.
  unfold _find_module_of_import. destruct (excluded host imp_name).
  { by intros [= <- <-]. }
  destruct (Py.endswith imp_name ".*"); [by intros [= <- <-]|].
  destruct (_module_cache g !! _); [by intros [= <- <-]|].
  destruct (lookup_loop fs _ _ _ g) as [[[v|] g1]|]; [| |done]; by intros [= <- <-].
Qed.

Lemma resolve_all_None import_infos file_path g resolved g' :
  resolve_all fs host import_infos file_path g = Ok (resolved, g') →
  Forall2 (λ imp r, r = None ↔ excluded host (ImportInfo.name imp) = true)
          import_infos resolved.
Proof.
  revert g resolved. induction import_infos as [|imp rest IH]; intros g resolved.
  - intros [= <- <-]. constructor.
  - simpl.
    destruct (_find_module_of_import _ _ _ _ _ g) as [[r g1]|] eqn:H1; [|done]. simpl.
    destruct (resolve_all _ _ rest _ g1) as [[rs g2]|] eqn:H2; [|done]. simpl.
    intros [= <- <-]. constructor.
    + by apply find_module_of_import_None in H1.
    + by apply (IH g1).
Qed.

(** X7. [parse_file] records no dependency for a file exactly when every
    import of the file names a module that is loaded or built in; any other
    import leaves a name in the dependency set, found or not. *)
Theorem parse_file_no_dependencies file_name file_path g g' name text root :
  parse_file fs host file_name file_path g = Ok ((), g') →
  _find_module_name fs file_name file_path = Ok name →
  read fs (Py.path_join file_path file_name) = Some text →
  ast_parse host text = Some root →
  ∃ m, _modules g' !! name = Some m ∧
       (imports m = ∅ ↔
        Forall (λ imp, excluded host (ImportInfo.name imp) = true) (list_imports root)).
Proof.
  intros (name' & text' & root' & resolved & g1 & Hname & Hread & Hparse & Hres & ->)%parse_file_inv
    Hname' Hread' Hparse'.
  rewrite Hname in Hname'. injection Hname' as <-.
  rewrite Hread in Hread'. injection Hread' as <-.
  rewrite Hparse in Hparse'. injection Hparse' as <-.
  eexists. split; [simpl; apply lookup_insert_eq|]. simpl.
  apply resolve_all_None in Hres.
  induction Hres as [|imp r imps rs Hr _ IH].
  - simpl. split; [constructor|done].
  - rewrite Forall_cons. destruct r as [v|]; simpl.
    + split.
      * intros Hempty. exfalso. apply (not_elem_of_empty (C:=gset string) v).
        rewrite <-Hempty. apply elem_of_union. left. by apply elem_of_singleton.
      * intros [Himp _]. apply Hr in Himp. done.
    + rewrite IH. split; [|by intros [_ ?]]. intros ?. split; [by apply Hr|done].
Qed.

End resolver_more.

(** ** More on the scan *)

Section scan_more.
Context (fs : filesystem) (host : interpreter).
Implicit Types (g : ModuleGraph).

Lemma resolve_all_exact import_infos file_path g resolved g' :
  cache_exact fs g →
  resolve_all fs host import_infos file_path g = Ok (resolved, g') → cache_exact fs g'.
Proof.
  revert g resolved. induction import_infos as [|imp rest IH]; intros g resolved Hexact.
  - by intros [= <- <-].
  - simpl.
    destruct (_find_module_of_import _ _ _ _ _ g) as [[r g1]|] eqn:H1; [|done]. simpl.
    destruct (resolve_all _ _ rest _ g1) as [[rs g2]|] eqn:H2; [|done]. simpl.
    intros [= <- <-]. apply (IH g1 rs); [|done]. revert H1.
    unfold _find_module_of_import.
    destruct (excluded host _); [by intros [= <- <-]|].
    destruct (Py.endswith _ ".*"); [by intros [= <- <-]|].
    destruct (_module_cache g !! _); [by intros [= <- <-]|].
    destruct (lookup_loop fs _ _ _ g) as [[result h]|] eqn:Hloop; [|done]. simpl.
    intros Hres. assert (h = g1) as -> by (destruct result; by injection Hres).
    by destruct (lookup_loop_exact fs _ _ _ _ _ _ Hexact Hloop).
Qed.

Lemma parse_file_exact file_name file_path g g' :
  cache_exact fs g →
  parse_file fs host file_name file_path g = Ok ((), g') → cache_exact fs g'.
Proof.
  intros Hexact (name & text & root & resolved & g1 & _ & _ & _ & Hres & ->)%parse_file_inv.
  by apply (resolve_all_exact _ _ _ _ _ Hexact Hres).
Qed.

Lemma parse_file_paths file_name file_path g g' :
  parse_file fs host file_name file_path g = Ok ((), g') → _paths g' = _paths g.
Proof.
  intros (name & text & root & resolved & g1 & _ & _ & _ & Hres & ->)%parse_file_inv.
  by apply resolve_all_grown in Hres as (_ & ? & _).
Qed.

Lemma parse_files_keeps files root g g' :
  parse_files fs host files root g = Ok ((), g') →
  _paths g' = _paths g ∧ (cache_exact fs g → cache_exact fs g').
Proof.
  revert g. induction files as [|file rest IH]; intros g.
  - by intros [= <-].
  - simpl. destruct (_ && _); [|apply IH].
    destruct (parse_file fs host file root g) as [[[] g1]|] eqn:Hfile; [|done]. simpl.
    intros Hrest. destruct (IH _ Hrest) as [Hp Hc]. split.
    + rewrite Hp. by apply parse_file_paths in Hfile.
    + intros Hexact. by apply Hc, (parse_file_exact _ _ _ _ Hexact Hfile).
Qed.

Lemma parse_walk_keeps triples g g' :
  parse_walk fs host triples g = Ok ((), g') →
  _paths g' = (_paths g ++ ((λ triple, triple.1.1) <$> triples))%list ∧
  (cache_exact fs g → cache_exact fs g').
Proof.
  revert g. induction triples as [|[[root dirs] files] rest IH]; intros g.
  - intros [= <-]. by rewrite app_nil_r.
  - simpl. destruct (parse_files fs host files root _) as [[[] g2]|] eqn:Hfiles; [|done].
    simpl. intros Hrest. destruct (IH _ Hrest) as [Hp Hc].
    apply parse_files_keeps in Hfiles as [Hp2 Hc2]. split.
    + rewrite Hp, Hp2. simpl. by rewrite <-app_assoc.
    + intros Hexact. apply Hc, Hc2. intros n e m Hn. simpl in *.
      by apply derived_from_more, Hexact.
Qed.

Lemma parse_paths_exact paths g g' :
  cache_exact fs g →
  parse_paths fs host paths g = Ok ((), g') → cache_exact fs g'.
Proof.
  revert g. induction paths as [|path rest IH]; intros g Hexact.
  - by intros [= <-].
  - simpl. destruct (negb _); [by intros [= <-]|].
    destruct (parse_walk fs host _ g) as [[[] g1]|] eqn:Hwalk; [|done]. simpl.
    apply IH. apply parse_walk_keeps in Hwalk as [_ Hc]. by apply Hc.
Qed.

Lemma parse_paths_prefix paths g g' :
  parse_paths fs host paths g = Ok ((), g') → _paths g `prefix_of` _paths g'.
Proof.
  revert g. induction paths as [|path rest IH]; intros g.
  - by intros [= <-].
  - simpl. destruct (negb _); [by intros [= <-]|].
    destruct (parse_walk fs host _ g) as [[[] g1]|] eqn:Hwalk; [|done]. simpl.
    intros Hrest. apply IH in Hrest. apply parse_walk_keeps in Hwalk as [Hp _].
    etrans; [|done]. rewrite Hp. by apply prefix_app_r.
Qed.

(** The loop over the files of a directory calls [parse_file] for those whose
    name ends in [.py] and is not [setup.py], and for no other. *)
Lemma parse_files_filter files root g :
  parse_files fs host files root g
  = parse_files fs host (List.filter scanned_file files) root g.
Proof.
  revert g. induction files as [|file rest IH]; intros g; [done|].
  simpl. unfold scanned_file at 1.
  destruct (Py.endswith file ".py" && negb (bool_decide (file = "setup.py"))) eqn:Hfile.
  - simpl. unfold scanned_file in Hfile |- *. rewrite Hfile.
    destruct (parse_file fs host file root g) as [[[] g1]|]; [|done]. simpl. apply IH.
  - apply IH.
Qed.

Lemma parse_file_scanned file_name file_path g g' :
  scanned_file file_name = true → from_scanned_files g →
  parse_file fs host file_name file_path g = Ok ((), g') → from_scanned_files g'.
Proof.
  intros Hfile Hg (name & text & root & resolved & g1 & _ & _ & _ & Hres & ->)%parse_file_inv.
  apply resolve_all_grown in Hres as (Hm & _ & _).
  intros k m. simpl. destruct (decide (name = k)) as [<-|Hne].
  - rewrite lookup_insert_eq. by intros [= <-].
  - rewrite lookup_insert_ne, Hm by done. apply Hg.
Qed.

Lemma parse_files_scanned files root g g' :
  from_scanned_files g →
  parse_files fs host files root g = Ok ((), g') → from_scanned_files g'.
Proof.
  revert g. induction files as [|file rest IH]; intros g Hg.
  - by intros [= <-].
  - simpl. destruct (_ && _) eqn:Hfile.
    + destruct (parse_file fs host file root g) as [[[] g1]|] eqn:Hparse; [|done]. simpl.
      apply IH. by apply (parse_file_scanned file root g g1).
    + by apply IH.
Qed.

Lemma parse_walk_scanned triples g g' :
  from_scanned_files g →
  parse_walk fs host triples g = Ok ((), g') → from_scanned_files g'.
Proof.
  revert g. induction triples as [|[[root dirs] files] rest IH]; intros g Hg.
  - by intros [= <-].
  - simpl. destruct (parse_files fs host files root _) as [[[] g2]|] eqn:Hfiles; [|done].
    simpl. apply IH. revert Hfiles. by apply parse_files_scanned.
Qed.

Lemma parse_paths_scanned paths g g' :
  from_scanned_files g →
  parse_paths fs host paths g = Ok ((), g') → from_scanned_files g'.
Proof.
  revert g. induction paths as [|path rest IH]; intros g Hg.
  - by intros [= <-].
  - simpl. destruct (negb _); [by intros [= <-]|].
    destruct (parse_walk fs host _ g) as [[[] g1]|] eqn:Hwalk; [|done]. simpl.
    apply IH. by apply (parse_walk_scanned _ _ _ Hg Hwalk).
Qed.

(** X12. Every module of a graph that [parse_paths] builds from a new
    [ModuleGraph] was read from a file whose name ends in [.py] and is not
    [setup.py]: no other file of the walked directories is registered. *)
Theorem parse_paths_registers_scanned paths g key m :
  parse_paths fs host paths (init host) = Ok ((), g) →
  _modules g !! key = Some m →
  Py.endswith (file_name m) ".py" = true ∧ file_name m ≠ "setup.py".
Proof.
  intros Hscan Hm.
  assert (from_scanned_files (init host)) as Hinit.
  { intros k m0. simpl. by rewrite lookup_empty. }
  pose proof (parse_paths_scanned _ _ _ Hinit Hscan key m Hm) as Hfile.
  apply andb_true_iff in Hfile as [Hends Hsetup]. split; [done|].
  by apply negb_true_iff, bool_decide_eq_false in Hsetup.
Qed.

(** X13. When every root exists and the scan returns, the search path has
    grown by exactly the directories that the walks of the roots went
    through, in walking order, behind the entries it had. *)
Theorem parse_paths_search_path paths g g' :
  Forall (λ path, path_exists fs path = true) paths →
  parse_paths fs host paths g = Ok ((), g') →
  _paths g' = (_paths g ++ flat_map (walk_roots fs) paths)%list.
Proof.
  revert g. induction paths as [|path rest IH]; intros g Hall.
  - intros [= <-]. simpl. by rewrite app_nil_r.
  - apply Forall_cons in Hall as [Hpath Hrest]. simpl. rewrite Hpath. simpl.
    destruct (parse_walk fs host _ g) as [[[] g1]|] eqn:Hwalk; [|done]. simpl.
    intros Hscan. rewrite (IH _ Hrest Hscan).
    apply parse_walk_keeps in Hwalk as [-> _]. by rewrite <-app_assoc.
Qed.

(** X14. What holds of every graph that a scan builds from a new
    [ModuleGraph]: each module is registered under its own name, each entry
    of the cache holds the name that a lookup of its key derives on the
    final search path, and the search path begins with [sys.path]. *)
Theorem parse_paths_invariants paths g :
  parse_paths fs host paths (init host) = Ok ((), g) →
  registry_named g ∧ cache_exact fs g ∧ sys_path host `prefix_of` _paths g.
Proof.
  intros Hscan. split_and!.
  - apply (parse_paths_named fs host paths (init host)); [apply init_named|done].
  - apply (parse_paths_exact paths (init host)); [|done].
    intros n e m. simpl. by rewrite lookup_empty.
  - by apply parse_paths_prefix in Hscan.
Qed.

(** X15. [parse_file] registers the file under its derived name, with the
    file's text, marked as a package exactly when the file is named
    [__init__.py]; whatever was registered under that name is replaced, and
    every other module stays as it was. *)
Theorem parse_file_registers file file_path g g' name text :
  parse_file fs host file file_path g = Ok ((), g') →
  _find_module_name fs file file_path = Ok name →
  read fs (Py.path_join file_path file) = Some text →
  (∃ m, _modules g' !! name = Some m ∧
        module_name m = name ∧ file_name m = file ∧ content m = text ∧
        (is_package m = true ↔ file = "__init__.py")) ∧
  (∀ k, k ≠ name → _modules g' !! k = _modules g !! k).
Proof.
  intros (name' & text' & root & resolved & g1 & Hname & Hread & _ & Hres & ->)%parse_file_inv
    Hname' Hread'.
  rewrite Hname in Hname'. injection Hname' as <-.
  rewrite Hread in Hread'. injection Hread' as <-.
  apply resolve_all_grown in Hres as (Hm & _ & _). split.
  - eexists. split; [simpl; apply lookup_insert_eq|]. simpl.
    split_and!; [done..|]. apply bool_decide_eq_true.
  - intros k Hk. simpl. by rewrite lookup_insert_ne, Hm.
Qed.

(** X16. Scanning a list of roots that all exist and then a second list is
    the same as scanning the two lists as one. *)
Theorem parse_paths_app paths1 paths2 g :
  Forall (λ path, path_exists fs path = true) paths1 →
  parse_paths fs host (paths1 ++ paths2) g
  = match parse_paths fs host paths1 g with
    | Ok (_, g1) => parse_paths fs host paths2 g1
    | Raise e => Raise e
    end.
Proof.
  revert g. induction paths1 as [|path rest IH]; intros g Hall; [done|].
  apply Forall_cons in Hall as [Hpath Hrest]. simpl. rewrite Hpath. simpl.
  destruct (parse_walk fs host _ g) as [[[] g1]|]; [|done]. simpl. by apply IH.
Qed.

End scan_more.

(** ** More on the ordering and the pack *)

Section order_more.
Import Toposort.
Implicit Types (data : gmap string (gset string)) (S : gset string) (g : ModuleGraph).

Lemma loop_cyclic fuel data S :
  (size data ≤ fuel)%nat → cyclic data S → loop fuel data = Raise CircularDependencyError.
Proof.
  revert data. induction fuel as [|fuel IH]; intros data Hsize [Hne Hcyc].
  - assert (data = ∅) as -> by (apply map_size_empty_inv; lia).
    apply set_choose_L in Hne as [a Ha]. destruct (Hcyc a Ha) as (dep & b & Hdep & _).
    by rewrite lookup_empty in Hdep.
  - assert (∀ a, a ∈ S → a ∉ ordered_of data) as Hout.
    { intros a Ha. destruct (Hcyc a Ha) as (dep & b & Hdep & Hb & _).
      rewrite elem_of_ordered_of, Hdep. intros [= ->]. by apply elem_of_empty in Hb. }
    destruct (decide (ordered_of data = ∅)) as [Hnone|Hsome].
    + rewrite loop_none by done. rewrite decide_False; [done|]. intros ->.
      apply set_choose_L in Hne as [a Ha]. destruct (Hcyc a Ha) as (dep & b & Hdep & _).
      by rewrite lookup_empty in Hdep.
    + rewrite loop_some by done. pose proof (size_remove_ordered data Hsome).
      rewrite IH; [done|lia|]. split; [done|]. intros a Ha.
      destruct (Hcyc a Ha) as (dep & b & Hdep & Hb & Hab & HbS).
      exists (dep ∖ ordered_of data), b. split_and!; [|  |done|done].
      * rewrite lookup_remove_ordered, decide_False by (by apply Hout). by rewrite Hdep.
      * apply elem_of_difference. split; [done|by apply Hout].
Qed.

Lemma remove_ordered_closed_irrefl data :
  closed_irrefl data → closed_irrefl (remove_ordered (ordered_of data) data).
Proof.
  intros [Hclosed Hirr]. split.
  - intros a dep b Ha Hb. rewrite lookup_remove_ordered in Ha. case_decide; [done|].
    destruct (data !! a) as [dep0|] eqn:Hdep; [|done]. injection Ha as <-.
    apply elem_of_difference in Hb as [Hb Hbo]. rewrite dom_remove_ordered.
    apply elem_of_difference. split; [by apply (Hclosed a dep0)|done].
  - intros a dep Ha Hin. rewrite lookup_remove_ordered in Ha. case_decide; [done|].
    destruct (data !! a) as [dep0|] eqn:Hdep; [|done]. injection Ha as <-.
    apply elem_of_difference in Hin as [Hin _]. by apply (Hirr a dep0).
Qed.

Lemma loop_Raise fuel data e :
  closed_irrefl data → loop fuel data = Raise e →
  e = CircularDependencyError ∧ ∃ S, cyclic data S.
Proof.
  revert data. induction fuel as [|fuel IH]; intros data Hci Hloop.
  - unfold loop in Hloop. destruct (decide (ordered_of data = ∅)) as [Hnone|]; [|done].
    destruct (decide (data = ∅)) as [|Hne]; [done|]. injection Hloop as <-.
    split; [done|]. exists (dom data). destruct Hci as [Hclosed Hirr]. split.
    + intros Hdom. apply Hne. by apply dom_empty_iff_L.
    + intros a [dep Hdep]%elem_of_dom.
      destruct (decide (dep = ∅)) as [->|Hdne].
      { apply elem_of_ordered_of in Hdep. rewrite Hnone in Hdep.
        by apply elem_of_empty in Hdep. }
      apply set_choose_L in Hdne as [b Hb]. exists dep, b. split_and!; [done|done| |].
      * intros ->. by apply (Hirr a dep).
      * by apply (Hclosed a dep).
  - destruct (decide (ordered_of data = ∅)) as [Hnone|Hsome].
    + rewrite loop_none in Hloop by done.
      destruct (decide (data = ∅)) as [|Hne]; [done|]. injection Hloop as <-.
      split; [done|]. exists (dom data). destruct Hci as [Hclosed Hirr]. split.
      * intros Hdom. apply Hne. by apply dom_empty_iff_L.
      * intros a [dep Hdep]%elem_of_dom.
        destruct (decide (dep = ∅)) as [->|Hdne].
        { apply elem_of_ordered_of in Hdep. rewrite Hnone in Hdep.
          by apply elem_of_empty in Hdep. }
        apply set_choose_L in Hdne as [b Hb]. exists dep, b. split_and!; [done|done| |].
        -- intros ->. by apply (Hirr a dep).
        -- by apply (Hclosed a dep).
    + rewrite loop_some in Hloop by done.
      destruct (loop fuel _) as [|e'] eqn:Hrest; [done|]. injection Hloop as <-.
      destruct (IH _ (remove_ordered_closed_irrefl _ Hci) Hrest) as (-> & S & HS & Hcyc).
      split; [done|]. exists S. split; [done|]. intros a Ha.
      destruct (Hcyc a Ha) as (dep & b & Hdep & Hb & Hab & HbS).
      rewrite lookup_remove_ordered in Hdep. case_decide; [done|].
      destruct (data !! a) as [dep0|] eqn:Hdep0; [|done]. injection Hdep as <-.
      apply elem_of_difference in Hb as [Hb _]. by exists dep0, b.
Qed.

Lemma lookup_add_extra_inv data k dep :
  add_extra data !! k = Some dep → data !! k = Some dep ∨ dep = ∅.
Proof.
  unfold add_extra. intros [Hl|[_ Hr]]%lookup_union_Some_raw; [|by left].
  apply lookup_gset_to_gmap_Some in Hl as [_ <-]. by right.
Qed.

Lemma add_extra_closed_irrefl data : closed_irrefl (add_extra (discard_self data)).
Proof.
  split.
  - intros a dep b Ha Hb. apply dom_add_extra.
    apply lookup_add_extra_inv in Ha as [Ha| ->]; [|by apply elem_of_empty in Hb].
    destruct (decide (b ∈ dom (discard_self data))); [by left|right]. by exists a, dep.
  - intros a dep Ha Hin.
    apply lookup_add_extra_inv in Ha as [Ha| ->]; [|by apply elem_of_empty in Hin].
    rewrite lookup_discard_self in Ha. destruct (data !! a); [|done].
    injection Ha as <-. apply elem_of_difference in Hin as [_ Hin].
    by apply Hin, elem_of_singleton.
Qed.

Lemma toposort_cyclic data e :
  toposort data = Raise e ↔ e = CircularDependencyError ∧ ∃ S, cyclic data S.
Proof.
  unfold toposort. split.
  - destruct (decide (data = ∅)); [done|]. intros Hloop.
    apply loop_Raise in Hloop as (-> & S & HS & Hcyc); [|apply add_extra_closed_irrefl].
    split; [done|]. exists S. split; [done|]. intros a Ha.
    destruct (Hcyc a Ha) as (dep & b & Hdep & Hb & Hab & HbS).
    apply lookup_add_extra_inv in Hdep as [Hdep| ->]; [|by apply elem_of_empty in Hb].
    rewrite lookup_discard_self in Hdep. destruct (data !! a) as [dep0|]; [|done].
    injection Hdep as <-. apply elem_of_difference in Hb as [Hb _]. by exists dep0, b.
  - intros (-> & S & HS & Hcyc). rewrite decide_False.
    2:{ intros ->. apply set_choose_L in HS as [a Ha].
        destruct (Hcyc a Ha) as (dep & b & Hdep & _). by rewrite lookup_empty in Hdep. }
    apply (loop_cyclic _ _ S); [done|]. split; [done|]. intros a Ha.
    destruct (Hcyc a Ha) as (dep & b & Hdep & Hb & Hab & HbS).
    exists (dep ∖ {[a]}), b. split_and!; [| |done|done].
    + apply lookup_add_extra_Some. by rewrite lookup_discard_self, Hdep.
    + apply elem_of_difference. split; [done|]. rewrite elem_of_singleton. congruence.
Qed.

Lemma collect_not_circular g order : collect g order ≠ Raise CircularDependencyError.
Proof.
  induction order as [|k order IH]; [done|]. simpl. unfold module_record.
  destruct (_modules g !! k); [|done]. simpl. by destruct (collect g order).
Qed.

(** X17. [generate_data] raises [CircularDependencyError] exactly when the
    recorded dependencies run in a circle: some set of modules is such that
    each of them depends on another one of the set. A module that depends
    only on itself is no circle. *)
Theorem generate_data_circular g :
  generate_data g = Raise CircularDependencyError ↔
  ∃ S, cyclic (imports <$> _modules g) S.
Proof.
  unfold generate_data, generate_data_iter, _build_dependency_data_iter,
    toposort_flatten_iter.
  destruct (toposort (imports <$> _modules g)) as [layers|e] eqn:Htopo.
  - simpl. split.
    + intros Hc. by apply collect_not_circular in Hc.
    + intros HS. assert (toposort (imports <$> _modules g) = Raise CircularDependencyError)
        as Hr by (by apply toposort_cyclic). by rewrite Htopo in Hr.
  - apply toposort_cyclic in Htopo as [-> HS]. simpl. by split.
Qed.

(** X18. When [generate_data] returns a pack, the pack holds the record of
    every registered module, each under its name, once, and no other record;
    and every recorded dependency names a registered module. *)
Theorem generate_data_complete g out :
  registry_named g →
  generate_data g = Ok out →
  NoDup (rec_name <$> out) ∧
  (∀ k, k ∈ rec_name <$> out ↔ is_Some (_modules g !! k)) ∧
  (∀ r, r ∈ out ↔ ∃ m, _modules g !! rec_name r = Some m ∧ r = to_dict m) ∧
  (∀ a ma d, _modules g !! a = Some ma → d ∈ imports ma → is_Some (_modules g !! d)).
Proof.
  intros Hnamed Hgen.
  unfold generate_data, generate_data_iter, _build_dependency_data_iter in Hgen.
  destruct (toposort_flatten_iter _ _) as [order|] eqn:Horder; [|done]. simpl in Hgen.
  pose proof (collect_names g order out Hnamed Hgen) as Hnames.
  pose proof (collect_Ok g order out Hgen) as Hrecs.
  apply toposort_flatten_order in Horder as (Hnodup & Hkeys & Hdeps & _ & _); [|done].
  assert (∀ k, k ∈ order → ∃ m, _modules g !! k = Some m ∧ to_dict m ∈ out) as Hreg.
  { intros k [i Hi]%list_elem_of_lookup.
    destruct (Forall2_lookup_l _ _ _ _ _ Hrecs Hi) as (r & Hr & m & Hm & ->).
    exists m. split; [done|]. by apply list_elem_of_lookup_2 in Hr. }
  split_and!.
  - by rewrite Hnames.
  - intros k. rewrite Hnames. split.
    + intros (m & Hm & _)%Hreg. by eexists.
    + intros Hk. apply Hkeys. rewrite dom_fmap. by apply elem_of_dom.
  - intros r. split.
    + intros [i Hi]%list_elem_of_lookup.
      destruct (Forall2_lookup_r _ _ _ _ _ Hrecs Hi) as (k & Hk & m & Hm & ->).
      exists m. split; [|done]. simpl. by rewrite (Hnamed k m Hm).
    + intros (m & Hm & ->). destruct (Hreg (rec_name (to_dict m))) as (m' & Hm' & Hin).
      { apply Hkeys. rewrite dom_fmap. apply elem_of_dom. by eexists. }
      rewrite Hm in Hm'. by injection Hm' as <-.
  - intros a ma d Ha Hd. destruct (Hreg d) as (m & Hm & _); [|by eexists].
    apply (Hdeps a d (imports ma)); [|done]. by rewrite lookup_fmap, Ha.
Qed.

Lemma toposort_independent data :
  (∀ k dep, data !! k = Some dep → dep = ∅) →
  toposort data = Ok (if decide (data = ∅) then [] else [dom data]).
Proof.
  intros Hnone. unfold toposort. destruct (decide (data = ∅)) as [|Hne]; [done|].
  assert (discard_self data = data) as ->.
  { apply map_eq. intros k. rewrite lookup_discard_self.
    destruct (data !! k) as [dep|] eqn:Hk; [|done]. simpl.
    rewrite (Hnone k dep Hk). f_equal. apply set_eq. intros x.
    rewrite elem_of_difference. split; [by intros [? _]|by intros ?%elem_of_empty]. }
  assert (extra_items_in_deps data = ∅) as Hextra.
  { apply set_eq. intros x. rewrite elem_of_extra_items. split.
    - intros [(k & dep & Hk & Hx) _]. rewrite (Hnone k dep Hk) in Hx.
      by apply elem_of_empty in Hx.
    - by intros ?%elem_of_empty. }
  assert (add_extra data = data) as ->.
  { unfold add_extra. rewrite Hextra, gset_to_gmap_empty. apply (left_id ∅ (∪)). }
  assert (ordered_of data = dom data) as Hord.
  { apply set_eq. intros k. rewrite elem_of_ordered_of, elem_of_dom. split.
    - intros Hk. by eexists.
    - intros [dep Hk]. by rewrite Hk, (Hnone k dep Hk). }
  assert (dom data ≠ ∅) as Hdom.
  { intros Hempty. by apply Hne, dom_empty_iff_L. }
  destruct (size data) as [|n] eqn:Hsize.
  { by apply map_size_empty_inv in Hsize. }
  rewrite loop_some, Hord by (by rewrite Hord).
  assert (remove_ordered (dom data) data = ∅) as ->.
  { apply map_eq. intros k. rewrite lookup_remove_ordered, lookup_empty.
    case_decide as Hk; [done|]. apply not_elem_of_dom in Hk. by rewrite Hk. }
  by rewrite loop_empty.
Qed.

Lemma collect_registered g order :
  (∀ k, k ∈ order → is_Some (_modules g !! k)) → ∃ out, collect g order = Ok out.
Proof.
  induction order as [|k order IH]; intros Hreg; [by eexists|].
  destruct (Hreg k) as [m Hm]; [by left|].
  destruct IH as [out Hout]; [intros k' Hk'; apply Hreg; by right|].
  simpl. unfold module_record. rewrite Hm. simpl. rewrite Hout. by eexists.
Qed.

(** X19. Modules that record no dependency come out in the lexical order of
    their names: when no registered module depends on anything,
    [generate_data] returns the records of all of them, sorted by name. *)
Theorem generate_data_independent g :
  registry_named g →
  (∀ k m, _modules g !! k = Some m → imports m = ∅) →
  ∃ out, generate_data g = Ok out ∧
         rec_name <$> out = sorted (elements (dom (_modules g))).
Proof.
  intros Hnamed Hnone.
  unfold generate_data, generate_data_iter, _build_dependency_data_iter,
    toposort_flatten_iter.
  rewrite toposort_independent.
  2:{ intros k dep. rewrite lookup_fmap.
      destruct (_modules g !! k) as [m|] eqn:Hk; [|done]. intros [= <-]. by apply (Hnone k). }
  simpl. rewrite <-(dom_fmap_L imports (_modules g)).
  set (data := imports <$> _modules g).
  assert (flatten elements (if decide (data = ∅) then [] else [dom data])
          = sorted (elements (dom data))) as ->.
  { destruct (decide (data = ∅)) as [->|].
    - by rewrite dom_empty_L, elements_empty.
    - unfold flatten. simpl. by rewrite app_nil_r. }
  destruct (collect_registered g (sorted (elements (dom data)))) as [out Hout].
  { intros k. unfold sorted. rewrite merge_sort_Permutation, elem_of_elements.
    subst data. rewrite dom_fmap_L. by intros ?%elem_of_dom. }
  exists out. split; [done|]. by apply (collect_names g).
Qed.

End order_more.

(** ** The names of found files *)

Section lookup_more.
Context (fs : filesystem).

Lemma contains_app_r pat s : Py.contains pat (s +:+ pat) = true.
Proof.
  induction s as [|a s IH].
  - rewrite append_nil. destruct pat as [|b pat]; [done|].
    cbn [Py.contains]. apply orb_true_iff. left.
    clear. revert b. induction pat as [|c pat IH]; intros b; simpl.
    + by destruct (Ascii.ascii_dec b b).
    + destruct (Ascii.ascii_dec b b); [apply IH|done].
  - rewrite append_cons. cbn [Py.contains]. by rewrite IH, orb_true_r.
Qed.

(** X21. The resolver and the scanner name a file alike: the name derived
    for a file does not depend on the directories that the file name is
    given with, for a module file as for a package marker. *)
Theorem find_module_name_trailing qualifier base file_path :
  Py.has_char "." qualifier = false →
  Py.has_char "." base = false → Py.has_char Py.sep base = false →
  Py.contains "__init__.py" (qualifier +:+ "/" +:+ base +:+ ".py") = false →
  Py.contains "__init__.py" (base +:+ ".py") = false →
  _find_module_name fs (qualifier +:+ "/" +:+ base +:+ ".py") file_path
    = _find_module_name fs (base +:+ ".py") file_path ∧
  _find_module_name fs (qualifier +:+ "/" +:+ "__init__.py") file_path
    = _find_module_name fs "__init__.py" file_path.
Proof.
  intros Hq Hb Hbsep Hinit1 Hinit2. unfold _find_module_name.
  destruct (climb fs _ _) as [names|]; [|done]. simpl. split.
  - rewrite Hinit1, Hinit2. simpl.
    assert (qualifier +:+ "/" +:+ base +:+ ".py" = (qualifier +:+ "/" +:+ base) +:+ ".py")
      as -> by (by rewrite !append_assoc).
    rewrite !before_first_no_dot; [|done|by rewrite !has_char_app, Hq, Hb].
    rewrite Hbsep, has_char_app. simpl. rewrite orb_true_r.
    change (qualifier +:+ "/" +:+ base) with (qualifier +:+ String Py.sep base).
    by rewrite split_app, (split_no_sep _ base), last_segment_snoc.
  - assert (Py.contains "__init__.py" (qualifier +:+ "/" +:+ "__init__.py") = true) as ->.
    { rewrite <-append_assoc. apply contains_app_r. }
    done.
Qed.

End lookup_more.

(** ** The further facts at work *)

Section more_examples.
Import Fixture MoreFixtures.

Lemma has_absolute_import_of_submodule_witness :
  has_absolute_import_of_module host "import pkg.sub.mod" "pkg" = Ok true.
Proof.
  apply (has_absolute_import_of_submodule host "import pkg.sub.mod" "pkg" "sub"
           (Node [Import [name_of "pkg.sub.mod"]])).
  - reflexivity.
  - intros names Hin. vm_compute in Hin.
    apply elem_of_cons in Hin as [Hin|Hin]; [discriminate Hin|].
    apply list_elem_of_singleton in Hin. discriminate Hin.
  - vm_compute. reflexivity.
Defined.


Lemma find_module_name_collision_witness :
  _find_module_name (TreeFs.fs collide_tree) ("sub" +:+ ".py")
    (Py.join Py.sep_s ([""; "r"; "proj"] ++ ["pkg"]))
  = _find_module_name (TreeFs.fs collide_tree) "__init__.py"
      (Py.join Py.sep_s ([""; "r"; "proj"] ++ ["pkg"] ++ ["sub"])).
Proof.
  apply (find_module_name_collision (TreeFs.fs collide_tree) [""; "r"; "proj"] ["pkg"] "sub"
           ["pkg"]).
  - discriminate.
  - repeat constructor.
  - reflexivity.
  - reflexivity.
  - intros i Hi. simpl in Hi. assert (i = 1%nat) as -> by lia.
    exists ["__init__.py"; "sub.py"; "sub"]. split; reflexivity.
  - reflexivity.
  - reflexivity.
Defined.

(** both files of [collide_tree] are named [pkg.sub] *)
Example collision_names :
  _find_module_name (TreeFs.fs collide_tree) "sub.py" "/r/proj/pkg" = Ok "pkg.sub" ∧
  _find_module_name (TreeFs.fs collide_tree) "__init__.py" "/r/proj/pkg/sub" = Ok "pkg.sub" ∧
  size (_modules (scanned collide_tree ["/r/proj"])) = 2%nat.
Proof. split_and!; vm_compute; reflexivity. Qed.

Lemma find_module_name_top_witness :
  _find_module_name (TreeFs.fs pkg_tree) "a.py" "r" = Raise (FileNotFoundError "") ∧
  _find_module_name (TreeFs.fs pkg_tree) "a.py" ("/" +:+ "r") = Raise (FileNotFoundError "").
Proof. apply find_module_name_top; reflexivity. Defined.

Lemma proj_graph_exact tree : cache_exact (TreeFs.fs tree) proj_graph.
Proof. intros n e m Hc. simpl in Hc. by rewrite lookup_empty in Hc. Qed.

Lemma find_module_of_import_provenance_witness :
  cache_exact (TreeFs.fs short_tree) (cache_store "pkg.sub" None "pkg.sub" proj_graph).
Proof.
  apply (proj1 (find_module_of_import_provenance (TreeFs.fs short_tree) host
                  "pkg.sub.Symbol" None "/r/proj" proj_graph (Some "pkg.sub")
                  (cache_store "pkg.sub" None "pkg.sub" proj_graph)
                  eq_refl eq_refl (proj_graph_exact short_tree) eq_refl)).
Defined.

Lemma find_module_of_import_direct_witness :
  _find_module_of_import (TreeFs.fs short_tree) host "pkg.sub" None "/r/proj"
    (cache_store "pkg.sub" (extra_path None "/r/proj") "pkg.sub" proj_graph)
  = Ok (Some "pkg.sub", cache_store "pkg.sub" (extra_path None "/r/proj") "pkg.sub" proj_graph).
Proof.
  apply (proj2 (find_module_of_import_direct (TreeFs.fs short_tree) host
                  "pkg.sub" None "/r/proj" proj_graph "/r/proj/pkg/sub.py" "pkg.sub"
                  eq_refl eq_refl eq_refl eq_refl eq_refl eq_refl eq_refl)).
Defined.

Lemma extra_path_trims_witness :
  extra_path (Some (S (length ["proj"; "pkg"]))) (Py.join Py.sep_s ([""; "r"] ++ ["proj"; "pkg"]))
  = Some (Py.join Py.sep_s [""; "r"]).
Proof.
  apply (proj1 (extra_path_trims [""; "r"] ["proj"; "pkg"]
                  ltac:(discriminate) ltac:(repeat constructor))).
Defined.

Lemma extra_path_above_top_witness :
  extra_path (Some 5) "/r/proj" = Some "".
Proof.
  apply (proj1 (extra_path_above_top (TreeFs.fs short_tree) 5 "/r/proj" "pkg/sub.py"
                  ["/r/proj"] ltac:(lia) ltac:(simpl; lia))).
Defined.

Lemma parse_file_no_dependencies_witness :
  ∃ m, _modules self_graph !! "pkg" = Some m ∧
       (imports m = ∅ ↔
        Forall (λ imp, excluded host (ImportInfo.name imp) = true)
          (list_imports (Node [ImportFrom (Some "pkg") [name_of "VERSION"] 0]))).
Proof.
  apply (parse_file_no_dependencies (TreeFs.fs self_tree) host "__init__.py" "/r/proj/pkg"
           pkg_graph self_graph "pkg" "from pkg import VERSION").
  - vm_compute. reflexivity.
  - reflexivity.
  - reflexivity.
  - reflexivity.
Defined.

Lemma scan_chain_graph : scan chain_tree ["/r/proj"] = Ok ((), chain_graph).
Proof. vm_compute. reflexivity. Qed.

Lemma scan_plain_graph : scan pkg_tree ["/r/proj"] = Ok ((), plain_graph).
Proof. vm_compute. reflexivity. Qed.

Lemma parse_paths_registers_scanned_witness :
  Py.endswith "mod.py" ".py" = true ∧ "mod.py" ≠ "setup.py".
Proof.
  apply (parse_paths_registers_scanned (TreeFs.fs setup_tree) host ["/r/proj"]
           (scanned setup_tree ["/r/proj"]) "sub.mod"
           {| module_name := "sub.mod"; file_name := "mod.py"; is_package := false;
              content := ""; imports := ∅ |}).
  - vm_compute. reflexivity.
  - vm_compute. reflexivity.
Defined.

(** the scan of [setup_tree] registers the two files of [sub] and leaves
    [setup.py] out *)
Example setup_tree_registry :
  (file_name <$> _modules (scanned setup_tree ["/r/proj"]))
  = <["sub" := "__init__.py"]> (<["sub.mod" := "mod.py"]> ∅).
Proof. vm_compute. reflexivity. Qed.

Lemma parse_paths_search_path_witness :
  _paths chain_graph
  = (_paths (init host) ++ flat_map (walk_roots (TreeFs.fs chain_tree)) ["/r/proj"])%list.
Proof.
  apply (parse_paths_search_path (TreeFs.fs chain_tree) host ["/r/proj"] (init host)).
  - repeat constructor.
  - apply scan_chain_graph.
Defined.

Lemma parse_paths_invariants_witness :
  registry_named chain_graph ∧ cache_exact (TreeFs.fs chain_tree) chain_graph ∧
  sys_path host `prefix_of` _paths chain_graph.
Proof.
  apply (parse_paths_invariants (TreeFs.fs chain_tree) host ["/r/proj"]).
  apply scan_chain_graph.
Defined.

Lemma parse_file_registers_witness :
  ∃ m, _modules self_graph !! "pkg" = Some m ∧
       module_name m = "pkg" ∧ file_name m = "__init__.py" ∧
       content m = "from pkg import VERSION" ∧
       (is_package m = true ↔ "__init__.py" = "__init__.py").
Proof.
  apply (proj1 (parse_file_registers (TreeFs.fs self_tree) host "__init__.py" "/r/proj/pkg"
                  pkg_graph self_graph "pkg" "from pkg import VERSION"
                  ltac:(vm_compute; reflexivity) eq_refl eq_refl)).
Defined.

Lemma parse_paths_app_witness :
  parse_paths (TreeFs.fs chain_tree) host (["/r/proj"] ++ ["/missing"]) (init host)
  = match parse_paths (TreeFs.fs chain_tree) host ["/r/proj"] (init host) with
    | Ok (_, g1) => parse_paths (TreeFs.fs chain_tree) host ["/missing"] g1
    | Raise e => Raise e
    end.
Proof.
  apply (parse_paths_app (TreeFs.fs chain_tree) host ["/r/proj"] ["/missing"]).
  repeat constructor.
Defined.

Lemma chain_graph_named : registry_named chain_graph.
Proof.
  apply (parse_paths_named (TreeFs.fs chain_tree) host ["/r/proj"] (init host));
    [apply init_named|apply scan_chain_graph].
Qed.

Lemma plain_graph_named : registry_named plain_graph.
Proof.
  apply (parse_paths_named (TreeFs.fs pkg_tree) host ["/r/proj"] (init host));
    [apply init_named|apply scan_plain_graph].
Qed.

Lemma generate_data_complete_witness :
  NoDup ["pkg"; "pkg.sub2"; "pkg.sub"].
Proof.
  apply (proj1 (generate_data_complete chain_graph
           [{| rec_name := "pkg"; rec_is_package := true; rec_code := "" |};
            {| rec_name := "pkg.sub2"; rec_is_package := false; rec_code := "" |};
            {| rec_name := "pkg.sub"; rec_is_package := false;
               rec_code := "from . import sub2" |}]
           chain_graph_named ltac:(vm_compute; reflexivity))).
Defined.

Lemma plain_graph_independent k m : _modules plain_graph !! k = Some m → imports m = ∅.
Proof.
  intros Hk. assert (is_Some (_modules plain_graph !! k)) as Hdom by (by eexists).
  apply elem_of_dom in Hdom.
  assert (dom (_modules plain_graph) = {["pkg"; "pkg.sub"; "pkg.sub.mod"]}) as Hd
    by (vm_compute; reflexivity).
  rewrite Hd in Hdom.
  apply elem_of_union in Hdom as [Hdom|Hdom%elem_of_singleton];
    [apply elem_of_union in Hdom as [Hdom%elem_of_singleton|Hdom%elem_of_singleton]|];
    subst k; vm_compute in Hk; injection Hk as <-; reflexivity.
Qed.

Lemma generate_data_independent_witness :
  ∃ out, generate_data plain_graph = Ok out ∧
         rec_name <$> out = Toposort.sorted (elements (dom (_modules plain_graph))).
Proof.
  apply (generate_data_independent plain_graph plain_graph_named plain_graph_independent).
Defined.

(** the pack of [pkg_tree] in lexical order *)
Example plain_pack_order :
  rec_name <$> match generate_data plain_graph with Ok out => out | Raise _ => [] end
  = ["pkg"; "pkg.sub"; "pkg.sub.mod"].
Proof. vm_compute. reflexivity. Qed.

(** two modules that import each other cannot be packed *)
Example mutual_import_raises :
  generate_data mutual_graph = Raise CircularDependencyError.
Proof. vm_compute. reflexivity. Qed.

Lemma find_module_name_trailing_witness :
  _find_module_name (TreeFs.fs short_tree) ("pkg" +:+ "/" +:+ "sub" +:+ ".py") "/r/proj/pkg"
  = _find_module_name (TreeFs.fs short_tree) ("sub" +:+ ".py") "/r/proj/pkg".
Proof.
  apply (proj1 (find_module_name_trailing (TreeFs.fs short_tree) "pkg" "sub" "/r/proj/pkg"
                  eq_refl eq_refl eq_refl eq_refl eq_refl)).
Defined.

End more_examples.
